(** * stestr: the run command and its isolation analysis

    A shallow embedding of [stestr/commands/run.py]: the conversion of a
    [--no-discover] argument into a test id, the execution primitive
    [_run_tests] with its until-failure loop, the isolated mode of
    [run_command], the reconstruction of per-worker histories in
    [_prior_tests], and the bisection of [--analyze-isolation]. *)

From Stdlib Require Import ZArith Lia Ascii.
From stdpp Require Import base option list strings gmap fin_maps.

Local Open Scope Z_scope.

(** ** Python values and control flow *)

Module Py.

(** The exceptions the embedded code can raise.  [External] stands for an
    exception raised inside a collaborator (repository, worker command,
    stream loader). *)
Inductive exn : Type :=
| KeyError
| ValueError
| TypeError
| AttributeError
| IndexError
| SystemExit (code : Z)
| External (what : string).

(** The outcome of running a piece of code: a value, a raised exception,
    or [Diverged] when an unbounded loop used up the iterations it was
    given. *)
Inductive res (A : Type) : Type :=
| Ok (a : A)
| Raise (e : exn)
| Diverged.
Arguments Ok {A} a.
Arguments Raise {A} e.
Arguments Diverged {A}.

(** [l.index(x)]: position of the first occurrence, [ValueError] if none. *)
Fixpoint index (x : string) (l : list string) : res nat :=
  match l with
  | [] => Raise ValueError
  | y :: l' =>
      if decide (y = x) then Ok 0%nat
      else match index x l' with
           | Ok i => Ok (S i)
           | r => r
           end
  end.

(** [len(l)] *)
Definition len {A} (l : list A) : Z := Z.of_nat (length l).

(** [l[lo:hi]] for [0 <= lo] and [0 <= hi]. *)
Definition slice {A} (l : list A) (lo hi : Z) : list A :=
  take (Z.to_nat hi - Z.to_nat lo) (drop (Z.to_nat lo) l).

(** [d.setdefault(k, []).append(v)] *)
Definition setdefault_append `{Countable K} {V}
    (k : K) (v : V) (d : gmap K (list V)) : gmap K (list V) :=
  <[k := default [] (d !! k) ++ [v]]> d.

(** [d.setdefault(k, []).extend(vs)] *)
Definition setdefault_extend `{Countable K} {V}
    (k : K) (vs : list V) (d : gmap K (list V)) : gmap K (list V) :=
  <[k := default [] (d !! k) ++ vs]> d.

End Py.
Import Py.

(** ** Per-worker histories: [_prior_tests] *)

Module PriorTests.

(** The dictionary [testtools.StreamToDict] hands to its callback for each
    test of a run.  The tags are a Python set; the list gives them in the
    order the [for tag in tags] loop visits them. *)
Record test_dict : Type := TestDict {
  td_id : string;
  td_status : string;
  td_tags : list string
}.

(** A run, as far as [run.get_test()] followed by [case.run(mapper)] shows
    it: the test dictionaries in the order they reach the callback. *)
Definition run := list test_dict.

(** Workers are tag strings; [None] is Python's [None], used when a test
    has no [worker-N] tag. *)
Abbreviation worker := (option string).

Abbreviation w2t_map := (gmap worker (list string)).
Abbreviation t2w_map := (gmap string (list worker)).

(** The analyzer object, with the two attributes [_prior_tests] caches on
    it; [None] is an attribute that was never assigned. *)
Record analyzer : Type := Analyzer {
  _worker_to_test : option w2t_map;
  _test_to_worker : option t2w_map
}.

Definition new_analyzer : analyzer := Analyzer None None.

(** The [workers] list [map_test] computes from the tags. *)
Definition workers_of (tags : list string) : list worker :=
  let workers := Some <$> filter (λ tag, String.prefix "worker-" tag = true) tags in
  match workers with
  | [] => [None]
  | _ => workers
  end.

(** The callback [map_test], acting on the two dictionaries. *)
Definition map_test (acc : w2t_map * t2w_map) (td : test_dict)
    : w2t_map * t2w_map :=
  let workers := workers_of (td_tags td) in
  (foldl (λ m w, setdefault_append w (td_id td) m) acc.1 workers,
   setdefault_extend (td_id td) workers acc.2).

Definition build (r : run) : w2t_map * t2w_map :=
  foldl map_test (∅, ∅) r.

(** [not getattr(self, '_worker_to_test', False)]: the attribute is missing
    or holds an empty dictionary. *)
Definition needs_build (self : analyzer) : bool :=
  match _worker_to_test self with
  | None => true
  | Some m => bool_decide (m = ∅)
  end.

(** The loop [for worker in failing_workers], extending [prior_tests]. *)
Fixpoint collect_prior (w2t : option w2t_map) (failing_id : string)
    (failing_workers : list worker) (prior_tests : list string)
    : res (list string) :=
  match failing_workers with
  | [] => Ok prior_tests
  | worker :: rest =>
      match w2t with
      | None => Raise AttributeError
      | Some m =>
          match m !! worker with
          | None => Raise KeyError
          | Some worker_tests =>
              match index failing_id worker_tests with
              | Ok i =>
                  collect_prior w2t failing_id rest
                    (prior_tests ++ take i worker_tests)
              | Raise e => Raise e
              | Diverged => Diverged
              end
          end
      end
  end.

(** The first half of [_prior_tests]: when the cache is missing, decode the
    run and store both dictionaries on the analyzer. *)
Definition memoize (self : analyzer) (r : run) : analyzer :=
  if needs_build self
  then let maps := build r in Analyzer (Some maps.1) (Some maps.2)
  else self.

(** The second half: look the failing id up and walk its workers. *)
Definition lookup_prior (self : analyzer) (failing_id : string)
    : res (list string) :=
  match _test_to_worker self with
  | None => Raise AttributeError
  | Some t2w =>
      match t2w !! failing_id with
      | None => Raise KeyError
      | Some failing_workers =>
          collect_prior (_worker_to_test self) failing_id failing_workers []
      end
  end.

(** [_prior_tests(self, run, failing_id)]: the analyzer after the call and
    what the call returns or raises. *)
Definition _prior_tests (self : analyzer) (r : run) (failing_id : string)
    : analyzer * res (list string) :=
  let self := memoize self r in
  (self, lookup_prior self failing_id).

(** *** The histories read off the event stream *)

(** The ids recorded for worker [w], in arrival order: one entry for each
    time an event names [w]. *)
Definition worker_sequence (r : run) (w : worker) : list string :=
  td ← r; (λ _, td_id td) <$> filter (λ w', w' = w) (workers_of (td_tags td)).

(** The workers test [id] was associated with, event after event. *)
Definition associated_workers (r : run) (id : string) : list worker :=
  td ← r; if decide (td_id td = id) then workers_of (td_tags td) else [].

(** The part of a sequence strictly before the first occurrence of [id]. *)
Fixpoint before_first (id : string) (l : list string) : list string :=
  match l with
  | [] => []
  | y :: l' => if decide (y = id) then [] else y :: before_first id l'
  end.

(** *** Facts about the dictionaries built from a run *)

Section Build.

Definition entries {K} `{Countable K} {V} (m : gmap K (list V)) (k : K) : list V :=
  default [] (m !! k).

(** Every key of a dictionary built by [setdefault] and [append] or a
    non-empty [extend] holds a non-empty list. *)
Definition nonempty_values {K} `{Countable K} {V} (m : gmap K (list V)) : Prop :=
  ∀ k l, m !! k = Some l → l ≠ [].

Lemma nonempty_values_lookup {K} `{Countable K} {V} (m : gmap K (list V)) k :
  nonempty_values m →
  m !! k = match entries m k with [] => None | l => Some l end.
Proof.
  intros Hm. unfold entries. destruct (m !! k) as [l|] eqn:E; simpl; [|done].
  destruct l; [by apply Hm in E|done].
Qed.

Lemma workers_of_nonempty tags : workers_of tags ≠ [].
Proof. unfold workers_of. by destruct (Some <$> filter _ tags). Qed.

Lemma entries_append_workers (id : string) (ws : list worker) (m : w2t_map) w :
  entries (foldl (λ m w, setdefault_append w id m) m ws) w
  = entries m w ++ ((λ _, id) <$> filter (λ w', w' = w) ws).
Proof.
  revert m. induction ws as [|w0 ws IH]; intros m; simpl.
  - by rewrite app_nil_r.
  - rewrite IH. unfold entries at 1, setdefault_append.
    rewrite filter_cons. destruct (decide (w0 = w)) as [->|Hne].
    + rewrite lookup_insert_eq. simpl. by rewrite <- app_assoc.
    + by rewrite lookup_insert_ne.
Qed.

Lemma nonempty_append_workers (id : string) (ws : list worker) (m : w2t_map) :
  nonempty_values m →
  nonempty_values (foldl (λ m w, setdefault_append w id m) m ws).
Proof.
  revert m. induction ws as [|w0 ws IH]; intros m Hm; simpl; [done|].
  apply IH. intros k l. unfold setdefault_append.
  destruct (decide (w0 = k)) as [->|Hne].
  - rewrite lookup_insert_eq. intros [= <-]. intros Hnil. by apply app_nil in Hnil as [_ ?].
  - rewrite lookup_insert_ne by done. apply Hm.
Qed.

Lemma build_from_entries (r : run) (acc : w2t_map * t2w_map) :
  let acc' := foldl map_test acc r in
  (∀ w, entries acc'.1 w = entries acc.1 w ++ worker_sequence r w)
  ∧ (∀ id, entries acc'.2 id = entries acc.2 id ++ associated_workers r id)
  ∧ (nonempty_values acc.1 → nonempty_values acc'.1)
  ∧ (nonempty_values acc.2 → nonempty_values acc'.2).
Proof.
  revert acc. induction r as [|td r IH]; intros acc; simpl.
  - split_and!; intros; by rewrite ?app_nil_r.
  - destruct (IH (map_test acc td)) as (IH1 & IH2 & IH3 & IH4).
    split_and!.
    + intros w. rewrite IH1. simpl. rewrite entries_append_workers.
      unfold worker_sequence. simpl. by rewrite <- app_assoc.
    + intros id. rewrite IH2. simpl. unfold entries at 1, setdefault_extend.
      unfold associated_workers. simpl.
      destruct (decide (td_id td = id)) as [->|Hne].
      * rewrite lookup_insert_eq. simpl. by rewrite <- app_assoc.
      * by rewrite lookup_insert_ne.
    + intros Hm. apply IH3. simpl. by apply nonempty_append_workers.
    + intros Hm. apply IH4. simpl. intros k l. unfold setdefault_extend.
      destruct (decide (td_id td = k)) as [->|Hne].
      * rewrite lookup_insert_eq. intros [= <-].
        pose proof (workers_of_nonempty (td_tags td)).
        intros Hnil. by apply app_nil in Hnil as [_ ?].
      * rewrite lookup_insert_ne by done. apply Hm.
Qed.

Lemma nonempty_values_empty {K} `{Countable K} {V} :
  nonempty_values (∅ : gmap K (list V)).
Proof. intros k l. by rewrite lookup_empty. Qed.

Lemma build_worker_to_test (r : run) w :
  (build r).1 !! w
  = match worker_sequence r w with [] => None | l => Some l end.
Proof.
  destruct (build_from_entries r (∅, ∅)) as (H1 & _ & H3 & _).
  unfold build. rewrite (nonempty_values_lookup _ w (H3 nonempty_values_empty)).
  by rewrite H1.
Qed.

Lemma build_test_to_worker (r : run) id :
  (build r).2 !! id
  = match associated_workers r id with [] => None | l => Some l end.
Proof.
  destruct (build_from_entries r (∅, ∅)) as (_ & H2 & _ & H4).
  unfold build. rewrite (nonempty_values_lookup _ id (H4 nonempty_values_empty)).
  by rewrite H2.
Qed.

End Build.

(** *** Facts about [index] and the prefix it cuts *)

Lemma index_elem (id : string) (l : list string) :
  id ∈ l → index id l = Ok (length (before_first id l)).
Proof.
  induction l as [|y l IH]; simpl.
  - by intros ?%elem_of_nil.
  - intros Hin. destruct (decide (y = id)) as [->|Hne]; [done|].
    apply elem_of_cons in Hin as [->|Hin]; [done|]. by rewrite IH.
Qed.

Lemma index_not_elem (id : string) (l : list string) :
  id ∉ l → index id l = Raise ValueError.
Proof.
  induction l as [|y l IH]; simpl; [done|].
  intros Hin. apply not_elem_of_cons in Hin as [Hne Hin].
  destruct (decide (y = id)) as [->|_]; [done|]. by rewrite IH.
Qed.

Lemma before_first_split (id : string) (l : list string) :
  id ∈ l → ∃ post, l = before_first id l ++ id :: post.
Proof.
  induction l as [|y l IH]; simpl.
  - by intros ?%elem_of_nil.
  - intros Hin. destruct (decide (y = id)) as [->|Hne]; [by exists l|].
    apply elem_of_cons in Hin as [->|Hin]; [done|].
    destruct (IH Hin) as [post Hpost]. exists post. simpl. by rewrite <- Hpost.
Qed.

Lemma before_first_not_elem (id : string) (l : list string) :
  id ∉ before_first id l.
Proof.
  induction l as [|y l IH]; simpl.
  - apply not_elem_of_nil.
  - destruct (decide (y = id)) as [->|Hne]; [apply not_elem_of_nil|].
    apply not_elem_of_cons. split; [done|apply IH].
Qed.

Lemma take_before_first (id : string) (l : list string) :
  take (length (before_first id l)) l = before_first id l.
Proof.
  induction l as [|y l IH]; simpl; [done|].
  destruct (decide (y = id)); simpl; [done|]. by rewrite IH.
Qed.

(** *** Membership in the histories *)

Lemma elem_associated_workers (r : run) (id : string) w :
  w ∈ associated_workers r id ↔
  ∃ td, td ∈ r ∧ td_id td = id ∧ w ∈ workers_of (td_tags td).
Proof.
  unfold associated_workers. rewrite list_elem_of_bind. split.
  - intros (td & Hw & Htd). exists td. destruct (decide (td_id td = id)); [done|].
    by apply elem_of_nil in Hw.
  - intros (td & Htd & Hid & Hw). exists td. by rewrite decide_True.
Qed.

Lemma elem_worker_sequence (r : run) (id : string) w :
  id ∈ worker_sequence r w ↔
  ∃ td, td ∈ r ∧ td_id td = id ∧ w ∈ workers_of (td_tags td).
Proof.
  unfold worker_sequence. rewrite list_elem_of_bind. split.
  - intros (td & Hid & Htd). exists td. apply list_elem_of_fmap in Hid as (w' & -> & Hw').
    apply list_elem_of_filter in Hw' as [-> Hw']. done.
  - intros (td & Htd & Hid & Hw). exists td. split; [|done].
    apply list_elem_of_fmap. exists w. split; [done|]. by apply list_elem_of_filter.
Qed.

Lemma associated_workers_nil (r : run) (id : string) :
  associated_workers r id = [] ↔ id ∉ td_id <$> r.
Proof.
  split.
  - intros Hnil Hin. apply list_elem_of_fmap in Hin as (td & -> & Htd).
    pose proof (workers_of_nonempty (td_tags td)) as Hne.
    destruct (workers_of (td_tags td)) as [|w ws] eqn:E; [done|].
    assert (w ∈ associated_workers r (td_id td)) as Hw.
    { apply elem_associated_workers. exists td. rewrite E. split_and!; [done..|left]. }
    rewrite Hnil in Hw. by apply elem_of_nil in Hw.
  - intros Hnot. destruct (associated_workers r id) as [|w ws] eqn:E; [done|].
    exfalso. apply Hnot. assert (w ∈ associated_workers r id) as Hw by (rewrite E; left).
    apply elem_associated_workers in Hw as (td & Htd & <- & _).
    apply list_elem_of_fmap. by exists td.
Qed.

(** The loop over the failing workers, on the dictionaries of a run. *)
Lemma collect_prior_build (r : run) (id : string) (ws : list worker) acc :
  (∀ w, w ∈ ws → id ∈ worker_sequence r w) →
  collect_prior (Some (build r).1) id ws acc
  = Ok (acc ++ (w ← ws; before_first id (worker_sequence r w))).
Proof.
  revert acc. induction ws as [|w ws IH]; intros acc Hws; simpl.
  - by rewrite app_nil_r.
  - assert (id ∈ worker_sequence r w) as Hin by (apply Hws; left).
    rewrite build_worker_to_test.
    destruct (worker_sequence r w) as [|y l] eqn:E; [by apply elem_of_nil in Hin|].
    rewrite (index_elem _ _ Hin), take_before_first.
    rewrite IH; [by rewrite <- app_assoc|].
    intros w' Hw'. apply Hws. by right.
Qed.

(** What a call on a fresh analyzer returns, read off the event stream. *)
Lemma _prior_tests_fresh (r : run) (id : string) :
  _prior_tests new_analyzer r id
  = (Analyzer (Some (build r).1) (Some (build r).2),
     match associated_workers r id with
     | [] => Raise KeyError
     | ws => Ok (w ← ws; before_first id (worker_sequence r w))
     end).
Proof.
  unfold _prior_tests, lookup_prior. simpl. rewrite build_test_to_worker.
  destruct (associated_workers r id) as [|w ws] eqn:E; [done|].
  f_equal. rewrite collect_prior_build; [done|].
  intros w' Hw'. rewrite <- E in Hw'.
  apply elem_worker_sequence. by apply elem_associated_workers.
Qed.

Lemma memoize_idem (self : analyzer) (r : run) :
  memoize (memoize self r) r = memoize self r.
Proof.
  unfold memoize. destruct (needs_build self) eqn:Hself.
  - cbv zeta. by match goal with |- (if ?b then _ else _) = _ => destruct b end.
  - by rewrite Hself.
Qed.

(** A second call sees the analyzer the first one left and changes nothing. *)
Lemma _prior_tests_again (self : analyzer) (r : run) (id id' : string) :
  _prior_tests (_prior_tests self r id).1 r id' = _prior_tests self r id'.
Proof. unfold _prior_tests. simpl. by rewrite memoize_idem. Qed.

(** Each association of [id] with [w] is one entry [id] in the sequence of
    [w], and conversely. *)
Lemma count_sequence_associated (r : run) (id : string) (w : worker) :
  length (filter (λ y, y = id) (worker_sequence r w))
  = length (filter (λ w', w' = w) (associated_workers r id)).
Proof.
  unfold worker_sequence, associated_workers.
  induction r as [|td r IH]; [done|].
  rewrite !bind_cons, !filter_app, !length_app, IH. f_equal.
  generalize (workers_of (td_tags td)). intros ws.
  destruct (decide (td_id td = id)) as [->|Hne].
  - induction ws as [|w0 ws IHws]; [done|].
    rewrite filter_cons. destruct (decide (w0 = w)) as [->|Hw]; [|done].
    rewrite fmap_cons, filter_cons, decide_True by done. simpl. by rewrite IHws.
  - induction ws as [|w0 ws IHws]; [done|].
    rewrite filter_cons. destruct (decide (w0 = w)) as [->|Hw]; [|done].
    by rewrite fmap_cons, filter_cons, decide_False.
Qed.

(** *** The claims about [_prior_tests] *)

(** Two streams against the unrestricted prefix reading: in the first, [a]
    is reported twice by the same worker, after [p]; in the second, [a] runs
    on two workers, after [p] on one and after [q] on the other. *)
Definition repeated_stream : run :=
  [ TestDict "p" "success" ["worker-0"];
    TestDict "a" "fail" ["worker-0"];
    TestDict "a" "fail" ["worker-0"] ].

Definition two_worker_stream : run :=
  [ TestDict "p" "success" ["worker-0"];
    TestDict "a" "fail" ["worker-0"];
    TestDict "q" "success" ["worker-1"];
    TestDict "a" "fail" ["worker-1"] ].

(** The reading of the prefix property for an arbitrary id of the stream:
    some worker's sequence splits at an occurrence of the id and the call
    returns the part before it. *)
Definition prior_is_worker_prefix (r : run) (id : string) : Prop :=
  ∃ w pre post,
    worker_sequence r w = pre ++ id :: post
    ∧ (_prior_tests new_analyzer r id).2 = Ok pre.

Example repeated_stream_prior :
  (_prior_tests new_analyzer repeated_stream "a").2 = Ok ["p"; "p"].
Proof. by vm_compute. Qed.

Example two_worker_stream_prior :
  (_prior_tests new_analyzer two_worker_stream "a").2 = Ok ["p"; "q"].
Proof. by vm_compute. Qed.

(** The sequence of a worker that tags none of the events below. *)
Lemma worker_sequence_other (r : run) (w : worker) :
  Forall (λ td, w ∉ workers_of (td_tags td)) r → worker_sequence r w = [].
Proof.
  unfold worker_sequence. induction 1 as [|td r Htd _ IH]; [done|].
  rewrite bind_cons, IH, app_nil_r.
  induction (workers_of (td_tags td)) as [|w0 ws IHws]; [done|].
  apply not_elem_of_cons in Htd as [Hne Hws].
  rewrite filter_cons, decide_False by done. by apply IHws.
Qed.

(** C2, as stated, fails: on [repeated_stream] the id [a] appears in the
    stream, yet the list returned for it, [p; p], is the prefix of no
    worker's sequence before an occurrence of [a]; on [two_worker_stream]
    the list returned is [p; q], again the prefix of no worker's
    sequence. *)
Lemma prior_tests_prefix_counterexample :
  ("a" ∈ td_id <$> repeated_stream
   ∧ ¬ prior_is_worker_prefix repeated_stream "a")
  ∧ ("a" ∈ td_id <$> two_worker_stream
     ∧ ¬ prior_is_worker_prefix two_worker_stream "a").
Proof.
  split; (split; [refine (bool_decide_unpack _ _); vm_compute; exact I|]).
  - intros (w & pre & post & Hseq & Hres).
    rewrite repeated_stream_prior in Hres. injection Hres as <-.
    destruct (decide (w = Some "worker-0")) as [->|Hne].
    + vm_compute in Hseq. discriminate.
    + rewrite worker_sequence_other in Hseq; [discriminate|].
      repeat (apply Forall_cons; split;
              [change (w ∉ [Some "worker-0"]);
               by intros ->%list_elem_of_singleton|]).
      apply Forall_nil_2.
  - intros (w & pre & post & Hseq & Hres).
    rewrite two_worker_stream_prior in Hres. injection Hres as <-.
    destruct (decide (w = Some "worker-0")) as [->|Hne0];
      [vm_compute in Hseq; discriminate|].
    destruct (decide (w = Some "worker-1")) as [->|Hne1];
      [vm_compute in Hseq; discriminate|].
    rewrite worker_sequence_other in Hseq; [discriminate|].
    repeat (apply Forall_cons; split;
            [first [change (w ∉ [Some "worker-0"])
                   |change (w ∉ [Some "worker-1"])];
             by intros ->%list_elem_of_singleton|]).
    apply Forall_nil_2.
Qed.

(** C2, amended: for an id associated with exactly one worker (one event,
    at most one worker tag), a fresh analyzer returns exactly the part of
    that worker's arrival-ordered sequence strictly before the id's single
    position, and a second call on the analyzer the first one left returns
    the same list and leaves the analyzer as it is. *)
Theorem prior_tests_single_worker_prefix (r : run) (id : string) (w : worker) :
  associated_workers r id = [w] →
  ∃ pre post,
    worker_sequence r w = pre ++ id :: post
    ∧ (id ∉ pre) ∧ (id ∉ post)
    ∧ (_prior_tests new_analyzer r id).2 = Ok pre
    ∧ _prior_tests (_prior_tests new_analyzer r id).1 r id
      = _prior_tests new_analyzer r id.
Proof.
  intros Hw.
  assert (id ∈ worker_sequence r w) as Hin.
  { apply elem_worker_sequence. apply elem_associated_workers. rewrite Hw. left. }
  destruct (before_first_split id _ Hin) as [post Hpost].
  exists (before_first id (worker_sequence r w)), post.
  split_and!.
  - done.
  - apply before_first_not_elem.
  - intros Hpostin.
    pose proof (count_sequence_associated r id w) as Hcount.
    rewrite Hw, Hpost in Hcount.
    rewrite filter_app, length_app, filter_cons, decide_True in Hcount by done.
    rewrite (filter_cons _ w), decide_True in Hcount by done. simpl in Hcount.
    apply list_elem_of_split in Hpostin as (l1 & l2 & ->).
    rewrite filter_app, length_app, filter_cons, decide_True in Hcount by done.
    simpl in Hcount. lia.
  - rewrite _prior_tests_fresh, Hw. simpl. by rewrite app_nil_r.
  - apply _prior_tests_again.
Qed.

Definition single_worker_stream : run :=
  [ TestDict "p" "success" ["worker-0"];
    TestDict "q" "success" ["worker-1"];
    TestDict "a" "fail" ["worker-0"] ].

Lemma prior_tests_single_worker_prefix_witness :
  associated_workers single_worker_stream "a" = [Some "worker-0"]
  ∧ ∃ pre post,
      worker_sequence single_worker_stream (Some "worker-0") = pre ++ "a" :: post
      ∧ ("a" ∉ pre) ∧ ("a" ∉ post)
      ∧ (_prior_tests new_analyzer single_worker_stream "a").2 = Ok pre
      ∧ _prior_tests (_prior_tests new_analyzer single_worker_stream "a").1
          single_worker_stream "a"
        = _prior_tests new_analyzer single_worker_stream "a".
Proof.
  split; [reflexivity|].
  apply (prior_tests_single_worker_prefix single_worker_stream "a" (Some "worker-0")).
  reflexivity.
Defined.

(** C3: for an id that no event of the run carries, the call raises
    [KeyError], on a fresh analyzer as well as on one that already cached
    the run; in particular it does not return the empty list. *)
Theorem prior_tests_absent_id_raises (r : run) (id : string) :
  id ∉ td_id <$> r →
  (_prior_tests new_analyzer r id).2 = Raise KeyError
  ∧ (∀ id0, (_prior_tests (_prior_tests new_analyzer r id0).1 r id).2
            = Raise KeyError)
  ∧ (_prior_tests new_analyzer r id).2 ≠ Ok [].
Proof.
  intros Habs. apply associated_workers_nil in Habs.
  assert ((_prior_tests new_analyzer r id).2 = Raise KeyError) as Hres.
  { by rewrite _prior_tests_fresh, Habs. }
  split_and!; [done| |by rewrite Hres].
  intros id0. by rewrite _prior_tests_again.
Qed.

Lemma prior_tests_absent_id_raises_witness :
  ("bad_test_id" ∉ td_id <$> single_worker_stream)
  ∧ (_prior_tests new_analyzer single_worker_stream "bad_test_id").2
    = Raise KeyError.
Proof.
  assert ("bad_test_id" ∉ td_id <$> single_worker_stream) as H.
  { refine (bool_decide_unpack _ _). vm_compute. exact I. }
  split; [exact H|].
  exact (proj1 (prior_tests_absent_id_raises single_worker_stream "bad_test_id" H)).
Defined.

(** C10: for an id of the stream, the call returns the concatenation, over
    the workers the id was associated with (event after event, the sentinel
    [None] included), of that worker's sequence cut strictly before the
    first occurrence of the id; each piece is a prefix of the worker's
    sequence, so the order inside it is the arrival order. *)
Theorem prior_tests_concat_over_workers (r : run) (id : string) :
  id ∈ td_id <$> r →
  (_prior_tests new_analyzer r id).2
  = Ok (w ← associated_workers r id; before_first id (worker_sequence r w))
  ∧ ∀ w, w ∈ associated_workers r id →
      (id ∉ before_first id (worker_sequence r w))
      ∧ ∃ post, worker_sequence r w
                = before_first id (worker_sequence r w) ++ id :: post.
Proof.
  intros Hin. split.
  - rewrite _prior_tests_fresh.
    destruct (associated_workers r id) as [|w ws] eqn:E; [|done].
    by apply associated_workers_nil in E.
  - intros w Hw. split; [apply before_first_not_elem|].
    apply before_first_split, elem_worker_sequence.
    by apply elem_associated_workers.
Qed.

(** [a] runs on two workers, once without any worker tag, and twice on
    [worker-0]. *)
Definition multi_worker_stream : run :=
  [ TestDict "p" "success" ["worker-0"];
    TestDict "q" "success" ["worker-1"];
    TestDict "n" "success" ["unrelated"];
    TestDict "a" "fail" ["worker-0"];
    TestDict "x" "success" ["worker-0"];
    TestDict "z" "success" ["worker-1"];
    TestDict "a" "fail" ["worker-1"; "worker-0"];
    TestDict "a" "fail" [] ].

Lemma prior_tests_concat_over_workers_witness :
  "a" ∈ td_id <$> multi_worker_stream
  ∧ (_prior_tests new_analyzer multi_worker_stream "a").2
    = Ok ["p"; "q"; "z"; "p"; "n"].
Proof.
  assert ("a" ∈ td_id <$> multi_worker_stream) as H.
  { refine (bool_decide_unpack _ _). vm_compute. exact I. }
  split; [exact H|].
  exact (proj1 (prior_tests_concat_over_workers multi_worker_stream "a" H)).
Defined.

(** *** Further properties of [_prior_tests] *)

Lemma before_first_elem (id x : string) (l : list string) :
  x ∈ before_first id l → x ∈ l ∧ x ≠ id.
Proof.
  induction l as [|y l IH]; simpl; [by intros ?%elem_of_nil|].
  destruct (decide (y = id)) as [->|Hne]; [by intros ?%elem_of_nil|].
  intros [->|Hin]%elem_of_cons.
  - split; [left|done].
  - destruct (IH Hin). split; [by right|done].
Qed.

Lemma build_nonempty (r : run) : r ≠ [] → (build r).1 ≠ ∅.
Proof.
  destruct r as [|td r]; [done|]. intros _ Hempty.
  pose proof (workers_of_nonempty (td_tags td)) as Hne.
  destruct (workers_of (td_tags td)) as [|w ws] eqn:E; [done|].
  assert (td_id td ∈ worker_sequence (td :: r) w) as Hin.
  { apply elem_worker_sequence. exists td. rewrite E. split_and!; [left|done|left]. }
  pose proof (build_worker_to_test (td :: r) w) as Hl.
  rewrite Hempty, lookup_empty in Hl.
  destruct (worker_sequence (td :: r) w); [by apply elem_of_nil in Hin|done].
Qed.

(** The docstring of [_prior_tests]: a fresh analyzer either raises
    [KeyError] or returns a list; every test of the list was recorded on a
    worker the failing test was seen on, before the first occurrence of the
    failing test in the sequence of that worker; the failing test itself is
    never in the list. *)
Theorem prior_tests_same_worker_only (r : run) (id : string) :
  ((_prior_tests new_analyzer r id).2 = Raise KeyError
   ∨ ∃ l, (_prior_tests new_analyzer r id).2 = Ok l)
  ∧ ∀ l x,
      (_prior_tests new_analyzer r id).2 = Ok l → x ∈ l →
      x ≠ id
      ∧ x ∈ (td_id <$> r)
      ∧ ∃ w pre post,
          w ∈ associated_workers r id
          ∧ worker_sequence r w = pre ++ id :: post
          ∧ (id ∉ pre)
          ∧ x ∈ pre.
Proof.
  rewrite _prior_tests_fresh. simpl. split.
  - destruct (associated_workers r id); [by left|right; by eexists].
  - intros l x Hl Hx.
    assert (x ∈ (w ← associated_workers r id;
                 before_first id (worker_sequence r w))) as Hin.
    { destruct (associated_workers r id); [done|]. by injection Hl as <-. }
    apply list_elem_of_bind in Hin as (w & Hxw & Hw).
    destruct (before_first_elem _ _ _ Hxw) as [Hseq Hne].
    split_and!; [done| |].
    + apply elem_worker_sequence in Hseq as (td & Htd & <- & _).
      by apply list_elem_of_fmap_2.
    + assert (id ∈ worker_sequence r w) as Hid.
      { apply elem_worker_sequence. by apply elem_associated_workers. }
      destruct (before_first_split id _ Hid) as [post Hsplit].
      exists w, (before_first id (worker_sequence r w)), post.
      split_and!; [done|done|apply before_first_not_elem|done].
Qed.

Lemma prior_tests_same_worker_only_witness :
  (_prior_tests new_analyzer single_worker_stream "a").2 = Ok ["p"]
  ∧ ("p" ≠ "a"
     ∧ "p" ∈ (td_id <$> single_worker_stream)
     ∧ ∃ w pre post,
         w ∈ associated_workers single_worker_stream "a"
         ∧ worker_sequence single_worker_stream w = pre ++ "a" :: post
         ∧ ("a" ∉ pre)
         ∧ "p" ∈ pre).
Proof.
  split; [reflexivity|].
  apply (proj2 (prior_tests_same_worker_only single_worker_stream "a") ["p"] "p").
  - reflexivity.
  - refine (bool_decide_unpack _ _). vm_compute. exact I.
Defined.

(** Once the analyzer holds the dictionaries of a non-empty run, the [run]
    argument of later calls is not looked at: a call for another run answers
    from the cached one. *)
Theorem prior_tests_answers_from_cache (r1 r2 : run) (id0 id : string) :
  r1 ≠ [] →
  _prior_tests (_prior_tests new_analyzer r1 id0).1 r2 id
  = _prior_tests new_analyzer r1 id.
Proof.
  intros Hne. unfold _prior_tests. simpl.
  assert (memoize (memoize new_analyzer r1) r2 = memoize new_analyzer r1) as ->;
    [|done].
  unfold memoize at 1. unfold needs_build. simpl.
  by rewrite bool_decide_eq_false_2 by by apply build_nonempty.
Qed.

Lemma prior_tests_answers_from_cache_witness :
  _prior_tests (_prior_tests new_analyzer single_worker_stream "p").1
    multi_worker_stream "a"
  = _prior_tests new_analyzer single_worker_stream "a".
Proof.
  apply (prior_tests_answers_from_cache single_worker_stream multi_worker_stream).
  discriminate.
Defined.

(** A run without tests leaves empty dictionaries, which count as no cache:
    the call raises [KeyError] for every id, and the next call decodes the
    run it is given. *)
Theorem prior_tests_empty_run_is_not_cached (r : run) (id id' : string) :
  (_prior_tests new_analyzer [] id).2 = Raise KeyError
  ∧ _prior_tests (_prior_tests new_analyzer [] id).1 r id'
    = _prior_tests new_analyzer r id'.
Proof.
  split; [done|]. unfold _prior_tests. simpl.
  assert (memoize (memoize new_analyzer []) r = memoize new_analyzer r) as ->;
    [|done].
  unfold memoize at 1. unfold needs_build. simpl.
  by rewrite bool_decide_eq_true_2.
Qed.

End PriorTests.

(** ** The [--no-discover] argument *)

Module NoDiscover.

(** A Python [str], character by character. *)
Abbreviation str := (list ascii).

Definition slash : ascii := "/"%char.
Definition dot : ascii := "."%char.

(** [s.find(c)]: index of the first [c], [-1] when there is none. *)
Fixpoint find (c : ascii) (s : str) : Z :=
  match s with
  | [] => -1
  | a :: s' =>
      if decide (a = c) then 0
      else let i := find c s' in if decide (0 <= i) then i + 1 else -1
  end.

(** [s.rfind(c)]: index of the last [c], [-1] when there is none. *)
Fixpoint rfind (c : ascii) (s : str) : Z :=
  match s with
  | [] => -1
  | a :: s' =>
      let i := rfind c s' in
      if decide (0 <= i) then i + 1
      else if decide (a = c) then 0 else -1
  end.

(** [s.replace(old, new)] for single characters. *)
Definition replace (old new : ascii) (s : str) : str :=
  (λ a, if decide (a = old) then new else a) <$> s.

(** The loop of [os.path.splitext] that skips the leading dots of the file
    name: it answers [true] as soon as one of the [n] characters from
    [filenameIndex] on is not a dot. *)
Fixpoint has_name_before_dot (p : str) (filenameIndex : Z) (n : nat) : bool :=
  match n with
  | O => false
  | S n' =>
      if decide (slice p filenameIndex (filenameIndex + 1) = [dot])
      then has_name_before_dot p (filenameIndex + 1) n'
      else true
  end.

(** [os.path.splitext(p)], as [posixpath] computes it (separator [/], no
    alternative separator, extension separator [.]). *)
Definition splitext (p : str) : str * str :=
  let sepIndex := rfind slash p in
  let dotIndex := rfind dot p in
  if decide (sepIndex < dotIndex) then
    let filenameIndex := sepIndex + 1 in
    if has_name_before_dot p filenameIndex (Z.to_nat (dotIndex - filenameIndex))
    then (take (Z.to_nat dotIndex) p, drop (Z.to_nat dotIndex) p)
    else (p, [])
  else (p, []).

(** The [ids] that [run_command] computes from [no_discover]. *)
Definition no_discover_ids (no_discover : str) : str :=
  let ids := no_discover in
  if decide (find slash ids ≠ -1) then
    let root := (splitext ids).1 in
    replace slash dot root
  else ids.

(** The command line handed to the subprocess. *)
Definition run_cmd (no_discover : str) : str :=
  String.list_ascii_of_string "python -m subunit.run " ++ no_discover_ids no_discover.

(** The test id of a Python string literal. *)
Definition ids_of (no_discover : string) : string :=
  String.string_of_list_ascii (no_discover_ids (String.list_ascii_of_string no_discover)).

(** *** Facts about [find] and [rfind] *)

Lemma find_absent (c : ascii) (s : str) : c ∉ s → find c s = -1.
Proof.
  induction s as [|a s IH]; simpl; [done|].
  intros [Hne Hs]%not_elem_of_cons. rewrite decide_False by done.
  rewrite IH by done. by rewrite decide_False by lia.
Qed.

Lemma find_present (c : ascii) (s : str) : c ∈ s → find c s ≠ -1.
Proof.
  induction s as [|a s IH]; simpl.
  - by intros ?%elem_of_nil.
  - intros Hin. destruct (decide (a = c)) as [|Hne]; [lia|].
    apply elem_of_cons in Hin as [->|Hin]; [done|].
    destruct (decide (0 <= find c s)); [lia|]. apply IH in Hin.
    assert (-1 <= find c s); [|lia].
    clear. induction s as [|a s IH]; simpl; [lia|].
    destruct (decide (a = c)); [lia|]. destruct (decide (0 <= find c s)); lia.
Qed.

Lemma rfind_bounds (c : ascii) (s : str) : -1 <= rfind c s < len s.
Proof.
  unfold len. induction s as [|a s IH]; simpl length; simpl rfind; [lia|].
  destruct (decide (0 <= rfind c s)); [lia|]. destruct (decide (a = c)); lia.
Qed.

Lemma rfind_absent (c : ascii) (s : str) : c ∉ s → rfind c s = -1.
Proof.
  induction s as [|a s IH]; simpl; [done|].
  intros [Hne Hs]%not_elem_of_cons. rewrite IH by done.
  rewrite decide_False by lia. by rewrite decide_False.
Qed.

Lemma rfind_app (c : ascii) (s1 s2 : str) :
  rfind c (s1 ++ s2)
  = if decide (0 <= rfind c s2) then len s1 + rfind c s2 else rfind c s1.
Proof.
  unfold len. induction s1 as [|a s1 IH]; simpl length; simpl rfind; simpl app.
  - destruct (decide (0 <= rfind c s2)) as [H|H]; [lia|].
    pose proof (rfind_bounds c s2). lia.
  - simpl rfind. rewrite IH. destruct (decide (0 <= rfind c s2)).
    + rewrite decide_True by lia. lia.
    + done.
Qed.

Lemma rfind_head (c : ascii) (s : str) : c ∉ s → rfind c (c :: s) = 0.
Proof.
  intros Hs. simpl. rewrite rfind_absent by done.
  rewrite decide_False by lia. by rewrite decide_True.
Qed.

(** The last [c] of [s1 ++ c :: s2] when [s2] has none. *)
Lemma rfind_last (c : ascii) (s1 s2 : str) :
  c ∉ s2 → rfind c (s1 ++ c :: s2) = len s1.
Proof.
  intros Hs. rewrite rfind_app, rfind_head by done.
  rewrite decide_True by lia. lia.
Qed.

Lemma slice_one (pre : str) (a : ascii) (post : str) :
  slice (pre ++ a :: post) (len pre) (len pre + 1) = [a].
Proof.
  unfold slice, len. rewrite Nat2Z.id.
  replace (Z.to_nat (Z.of_nat (length pre) + 1) - length pre)%nat with 1%nat by lia.
  by rewrite drop_app_length.
Qed.

Lemma has_name_before_dot_true (pre b post : str) :
  (∃ a, a ∈ b ∧ a ≠ dot) →
  has_name_before_dot (pre ++ b ++ post) (len pre) (length b) = true.
Proof.
  revert pre. induction b as [|a b IH]; intros pre (x & Hx & Hdot).
  - by apply elem_of_nil in Hx.
  - simpl. rewrite slice_one.
    destruct (decide ([a] = [dot])) as [[= ->]|]; [|done].
    apply elem_of_cons in Hx as [->|Hx]; [done|].
    specialize (IH (pre ++ [dot])).
    rewrite <- app_assoc in IH. simpl in IH.
    replace (len pre + 1) with (len (pre ++ [dot]))
      by (unfold len; rewrite length_app; simpl; lia).
    apply IH. by exists x.
Qed.

Lemma has_name_before_dot_false (pre b post : str) :
  (∀ a, a ∈ b → a = dot) →
  has_name_before_dot (pre ++ b ++ post) (len pre) (length b) = false.
Proof.
  revert pre. induction b as [|a b IH]; intros pre Hdots; [done|].
  simpl. rewrite slice_one.
  rewrite (Hdots a) by left. rewrite decide_True by done.
  specialize (IH (pre ++ [dot])).
  rewrite <- app_assoc in IH. simpl in IH.
  replace (len pre + 1) with (len (pre ++ [dot]))
    by (unfold len; rewrite length_app; simpl; lia).
  apply IH. intros x Hx. apply Hdots. by right.
Qed.

Lemma replace_absent (old new : ascii) (s : str) :
  old ∉ s → replace old new s = s.
Proof.
  induction s as [|a s IH]; [done|].
  intros [Hne Hs]%not_elem_of_cons. unfold replace in *. rewrite fmap_cons.
  rewrite decide_False by done. by rewrite IH.
Qed.

Lemma replace_app (old new : ascii) (s1 s2 : str) :
  replace old new (s1 ++ s2) = replace old new s1 ++ replace old new s2.
Proof. apply fmap_app. Qed.

(** [splitext] on a path whose last segment is [b.e]. *)
Lemma splitext_extension (d b e : str) :
  slash ∉ b → slash ∉ e → dot ∉ e → (∃ a, a ∈ b ∧ a ≠ dot) →
  splitext (d ++ slash :: b ++ dot :: e) = (d ++ slash :: b, dot :: e).
Proof.
  intros Hb He Hde Hname. unfold splitext.
  assert (rfind slash (d ++ slash :: b ++ dot :: e) = len d) as ->.
  { apply rfind_last. rewrite elem_of_app, elem_of_cons. intros [|[|]]; done. }
  assert (rfind dot (d ++ slash :: b ++ dot :: e) = len d + 1 + len b) as ->.
  { replace (d ++ slash :: b ++ dot :: e) with ((d ++ slash :: b) ++ dot :: e)
      by (by rewrite <- app_assoc).
    rewrite rfind_last by done. unfold len. rewrite length_app. simpl. lia. }
  rewrite decide_True by (unfold len; lia).
  replace (Z.to_nat (len d + 1 + len b - (len d + 1))) with (length b)
    by (unfold len; lia).
  replace (d ++ slash :: b ++ dot :: e) with ((d ++ [slash]) ++ b ++ dot :: e)
    by (by rewrite <- app_assoc).
  replace (len d + 1) with (len (d ++ [slash]))
    by (unfold len; rewrite length_app; simpl; lia).
  rewrite has_name_before_dot_true by done.
  replace (Z.to_nat (len (d ++ [slash]) + len b))
    with (length ((d ++ [slash]) ++ b)) by (unfold len; rewrite !length_app; simpl; lia).
  rewrite (app_assoc _ b).
  rewrite take_app_length, drop_app_length.
  by rewrite <- !app_assoc.
Qed.

(** [splitext] on a path whose last segment has only dots before its last
    dot: the leading dots belong to the name and there is no extension. *)
Lemma splitext_leading_dots (d b e : str) :
  slash ∉ e → dot ∉ e → (∀ a, a ∈ b → a = dot) →
  splitext (d ++ slash :: b ++ dot :: e) = (d ++ slash :: b ++ dot :: e, []).
Proof.
  intros He Hde Hdots. unfold splitext.
  assert (slash ∉ b) as Hb.
  { intros Hin. by apply Hdots in Hin. }
  assert (rfind slash (d ++ slash :: b ++ dot :: e) = len d) as ->.
  { apply rfind_last. rewrite elem_of_app, elem_of_cons. intros [|[|]]; done. }
  assert (rfind dot (d ++ slash :: b ++ dot :: e) = len d + 1 + len b) as ->.
  { replace (d ++ slash :: b ++ dot :: e) with ((d ++ slash :: b) ++ dot :: e)
      by (by rewrite <- app_assoc).
    rewrite rfind_last by done. unfold len. rewrite length_app. simpl. lia. }
  rewrite decide_True by (unfold len; lia).
  replace (Z.to_nat (len d + 1 + len b - (len d + 1))) with (length b)
    by (unfold len; lia).
  replace (d ++ slash :: b ++ dot :: e) with ((d ++ [slash]) ++ b ++ dot :: e)
    by (by rewrite <- app_assoc).
  replace (len d + 1) with (len (d ++ [slash]))
    by (unfold len; rewrite length_app; simpl; lia).
  by rewrite has_name_before_dot_false by done.
Qed.

(** [splitext] on a path whose last segment has no dot. *)
Lemma splitext_no_extension (d b : str) :
  slash ∉ b → dot ∉ b → splitext (d ++ slash :: b) = (d ++ slash :: b, []).
Proof.
  intros Hb Hdb. unfold splitext.
  rewrite (rfind_last slash) by done.
  rewrite rfind_app. rewrite (rfind_absent dot (slash :: b)).
  - rewrite (decide_False (P := 0 <= -1)) by lia.
    pose proof (rfind_bounds dot d). by rewrite decide_False by lia.
  - apply not_elem_of_cons. split; [done|done].
Qed.

Lemma replace_removes (old new : ascii) (s : str) :
  old ≠ new → old ∉ replace old new s.
Proof.
  intros Hne Hin. apply list_elem_of_fmap in Hin as (a & Ha & _).
  destruct (decide (a = old)); congruence.
Qed.

(** *** The claim about the ad-hoc test id *)

(** Every argument with a [/] is a directory part, a [/] and a last segment
    that has no dot, or has a name before its last dot, or has only dots
    before it. *)
Lemma path_cases (s : str) :
  slash ∈ s →
  ∃ d f,
    s = d ++ (slash :: f) ∧ (slash ∉ f)
    ∧ (dot ∉ f
       ∨ ∃ b e, f = b ++ (dot :: e) ∧ (dot ∉ e)
                ∧ ((∃ a, a ∈ b ∧ a ≠ dot) ∨ (∀ a, a ∈ b → a = dot))).
Proof.
  intros Hs. apply list_elem_of_split_r in Hs as (d & f & -> & Hf).
  exists d, f. split_and!; [done|done|].
  destruct (decide (dot ∈ f)) as [Hdot|Hdot]; [right|by left].
  apply list_elem_of_split_r in Hdot as (b & e & -> & He).
  exists b, e. split_and!; [done|done|].
  destruct (decide (Forall (λ a, a = dot) b)) as [Hall|Hall].
  - right. by apply Forall_forall.
  - left. apply not_Forall_Exists in Hall; [|apply _].
    by apply Exists_exists in Hall.
Qed.

(** C5, as stated, fails on a hidden file: for an argument whose last
    segment is [b.e] the claim strips [.e] whatever [b] is, and the last
    segment [.hidden] of [a/.hidden] is [b.e] with [b] empty; the code
    strips nothing there and the id is [a..hidden], not [a.]. *)
Lemma no_discover_ids_hidden_counterexample :
  ids_of "a/.hidden" = "a..hidden"
  ∧ ¬ (∀ d b e,
         slash ∉ b → slash ∉ e → dot ∉ e →
         no_discover_ids (d ++ slash :: b ++ dot :: e)
         = replace slash dot d ++ dot :: b).
Proof.
  split; [by vm_compute|]. intros Hclaim.
  specialize (Hclaim ["a"%char] [] (String.list_ascii_of_string "hidden")).
  assert (no_discover_ids
            (["a"%char] ++ slash :: [] ++ dot :: String.list_ascii_of_string "hidden")
          = replace slash dot ["a"%char] ++ dot :: []) as Heq.
  { apply Hclaim.
    - apply not_elem_of_nil.
    - refine (bool_decide_unpack _ _). vm_compute. exact I.
    - refine (bool_decide_unpack _ _). vm_compute. exact I. }
  vm_compute in Heq. discriminate.
Qed.

(** C5, amended: an argument without [/] is the id as it stands.  Of an
    argument with a [/] every [/] is turned into a dot, after the final
    extension is stripped as [os.path.splitext] defines it: a last segment
    [b.e], where [e] has no dot and [b] has a character other than a dot,
    loses [.e], whatever dots the directories [d] or the name [b] carry; a
    last segment without a dot, and a last segment with only dots before
    its last dot, are kept whole.  These cases cover every argument.  No [/]
    is ever left in the id, and the three sample arguments give the ids
    expected of them. *)
Theorem no_discover_ids_dotted :
  (∀ s, slash ∉ s → no_discover_ids s = s)
  ∧ (∀ d b e,
       slash ∉ b → slash ∉ e → dot ∉ e → (∃ a, a ∈ b ∧ a ≠ dot) →
       no_discover_ids (d ++ slash :: b ++ dot :: e)
       = replace slash dot d ++ dot :: b)
  ∧ (∀ d b,
       slash ∉ b → dot ∉ b →
       no_discover_ids (d ++ slash :: b) = replace slash dot d ++ dot :: b)
  ∧ (∀ d b e,
       slash ∉ e → dot ∉ e → (∀ a, a ∈ b → a = dot) →
       no_discover_ids (d ++ slash :: b ++ dot :: e)
       = replace slash dot d ++ dot :: b ++ dot :: e)
  ∧ (∀ s, slash ∉ no_discover_ids s)
  ∧ ids_of "stestr.tests.test_run.TestRun.test_ok"
    = "stestr.tests.test_run.TestRun.test_ok"
  ∧ ids_of "pkg/mod/test_file.py" = "pkg.mod.test_file"
  ∧ ids_of "pkg.v1/sub.dir/test_file.py" = "pkg.v1.sub.dir.test_file".
Proof.
  split_and!.
  - intros s Hs. unfold no_discover_ids. rewrite find_absent by done.
    by rewrite decide_False by (intros H; by apply H).
  - intros d b e Hb He Hde Hname. unfold no_discover_ids.
    rewrite decide_True.
    + rewrite splitext_extension by done. simpl.
      rewrite replace_app. f_equal. unfold replace at 1. rewrite fmap_cons.
      rewrite decide_True by done. f_equal. by apply replace_absent.
    + apply find_present, elem_of_app. right. apply elem_of_cons. by left.
  - intros d b Hb Hdb. unfold no_discover_ids.
    rewrite decide_True.
    + rewrite splitext_no_extension by done. simpl.
      rewrite replace_app. f_equal. unfold replace at 1. rewrite fmap_cons.
      rewrite decide_True by done. f_equal. by apply replace_absent.
    + apply find_present, elem_of_app. right. apply elem_of_cons. by left.
  - intros d b e He Hde Hdots. unfold no_discover_ids.
    rewrite decide_True.
    + rewrite splitext_leading_dots by done. simpl.
      rewrite replace_app. f_equal. unfold replace at 1. rewrite fmap_cons.
      rewrite decide_True by done. f_equal. apply replace_absent.
      rewrite elem_of_app, elem_of_cons. intros [Hin|[|]]; [|done..].
      by apply Hdots in Hin.
    + apply find_present, elem_of_app. right. apply elem_of_cons. by left.
  - intros s. unfold no_discover_ids.
    destruct (decide (find slash s ≠ -1)) as [Hf|Hf].
    + by apply replace_removes.
    + intros Hin. by apply find_present in Hin.
  - by vm_compute.
  - by vm_compute.
  - by vm_compute.
Qed.

Lemma no_discover_ids_dotted_witness :
  no_discover_ids (String.list_ascii_of_string "test_run.TestRun")
  = String.list_ascii_of_string "test_run.TestRun"
  ∧ no_discover_ids (String.list_ascii_of_string "pkg/mod/test_file.py")
    = String.list_ascii_of_string "pkg.mod.test_file"
  ∧ no_discover_ids (String.list_ascii_of_string "pkg.v1/mod")
    = String.list_ascii_of_string "pkg.v1.mod"
  ∧ no_discover_ids (String.list_ascii_of_string "a/.hidden")
    = String.list_ascii_of_string "a..hidden".
Proof.
  destruct no_discover_ids_dotted as (Hbare & Hext & Hplain & Hdots & _).
  split_and!.
  - apply Hbare. refine (bool_decide_unpack _ _). vm_compute. exact I.
  - refine (Hext (String.list_ascii_of_string "pkg/mod")
              (String.list_ascii_of_string "test_file")
              (String.list_ascii_of_string "py") _ _ _ _).
    + refine (bool_decide_unpack _ _). vm_compute. exact I.
    + refine (bool_decide_unpack _ _). vm_compute. exact I.
    + refine (bool_decide_unpack _ _). vm_compute. exact I.
    + exists "t"%char. split.
      * refine (bool_decide_unpack _ _). vm_compute. exact I.
      * discriminate.
  - refine (Hplain (String.list_ascii_of_string "pkg.v1")
              (String.list_ascii_of_string "mod") _ _).
    + refine (bool_decide_unpack _ _). vm_compute. exact I.
    + refine (bool_decide_unpack _ _). vm_compute. exact I.
  - refine (Hdots (String.list_ascii_of_string "a") []
              (String.list_ascii_of_string "hidden") _ _ _).
    + refine (bool_decide_unpack _ _). vm_compute. exact I.
    + refine (bool_decide_unpack _ _). vm_compute. exact I.
    + intros a Ha. by apply elem_of_nil in Ha.
Defined.

(** *** Further properties of the ad-hoc test id *)

Lemma no_discover_ids_without_slash (s : str) :
  slash ∉ s → no_discover_ids s = s.
Proof.
  intros Hs. unfold no_discover_ids. rewrite find_absent by done.
  by rewrite decide_False by (intros H; by apply H).
Qed.

Lemma splitext_root_prefix (p : str) : ∃ ext, p = (splitext p).1 ++ ext.
Proof.
  unfold splitext. destruct (decide _); [|exists []; by rewrite app_nil_r].
  destruct (has_name_before_dot _ _ _); simpl.
  - eexists. symmetry. apply take_drop.
  - exists []. by rewrite app_nil_r.
Qed.

(** Converting twice changes nothing more: the id computed from an
    argument is left as it is when it is passed again, and it is never
    longer than the argument. *)
Theorem no_discover_ids_idempotent (s : str) :
  no_discover_ids (no_discover_ids s) = no_discover_ids s
  ∧ (length (no_discover_ids s) ≤ length s)%nat.
Proof.
  split.
  - apply no_discover_ids_without_slash. unfold no_discover_ids.
    destruct (decide (find slash s ≠ -1)) as [Hf|Hf].
    + by apply replace_removes.
    + intros Hin. by apply find_present in Hin.
  - unfold no_discover_ids. destruct (decide (find slash s ≠ -1)); [|done].
    unfold replace. rewrite length_fmap.
    destruct (splitext_root_prefix s) as [ext Hext].
    rewrite Hext at 2. rewrite length_app. lia.
Qed.

End NoDiscover.

(** ** The run command: collaborators, state and control flow *)

Module Exec.
Import PriorTests.

(** The worker command object [conf.get_run_command(ids, regexes, ...)]
    returns; the other keyword arguments are the same at every call of one
    invocation of [run_command]. *)
Record cmd : Type := Cmd {
  cmd_ids : option (list string);
  cmd_regexes : option (list string)
}.

#[global] Instance cmd_eq_dec : EqDecision cmd.
Proof. solve_decision. Defined.

(** The calls [run_command] makes to its collaborators. *)
Inductive call : Type :=
| OpenRepo
| InitialiseRepo
| LatestId
| GetFailing
| GetLatestRun
| GetTestIds
| LatestRunSummary
| ReadLoadList (path : string)
| GetRunCommand (c : cmd)
| SetUp (c : cmd)
| ListTests (c : cmd)
| RunTests (c : cmd)
| CleanUp (c : cmd)
| Popen (command : string)
| Load (streams : nat) (partial subunit_out : bool) (run_id : option string)
| StdoutWrite (msg : string)
| OutputTable (rows : list (string * string))
| Call_run_tests (c : cmd)
| Call_prior_tests (failing_id : string).

#[global] Instance call_eq_dec : EqDecision call.
Proof. solve_decision. Defined.

(** What a collaborator answers: a value or an exception. *)
Inductive outcome (A : Type) : Type :=
| Returned (a : A)
| Raised (e : exn).
Arguments Returned {A} a.
Arguments Raised {A} e.

Definition to_res {A} (o : outcome A) : res A :=
  match o with
  | Returned a => Ok a
  | Raised e => Raise e
  end.

Definition has_returned {A} (o : outcome A) : bool :=
  match o with
  | Returned _ => true
  | Raised _ => false
  end.

(** One entry of the trace: the call and whether it returned. *)
Record event : Type := Event {
  ev_call : call;
  ev_returned : bool
}.

#[global] Instance event_eq_dec : EqDecision event.
Proof. solve_decision. Defined.

(** The parameters of [run_command] that decide its control flow.
    [no_discover] is the empty string when unset; [config_found] is
    [os.path.isfile(config)]; [test_path] and [load_list] are [None] when
    they are unset or empty, which the code does not tell apart. *)
Record options : Type := Options {
  config_found : bool;
  test_path : option string;
  failing : bool;
  load_list : option string;
  partial : bool;
  subunit_out : bool;
  until_failure : bool;
  analyze_isolation : bool;
  isolated : bool;
  no_discover : NoDiscover.str;
  combine : bool;
  filters : option (list string)
}.

Section World.

(** Everything outside [run_command]: repository, configuration, worker
    processes, output. *)
Context {W : Type}.

(** The behaviour of the collaborators on that world. *)
Record collaborators : Type := Collaborators {
  h_open_repo : W → W * outcome unit;
  h_initialise_repo : W → W * outcome unit;
  h_latest_id : W → W * outcome string;
  h_get_failing : W → W * outcome run;
  h_get_latest_run : W → W * outcome run;
  h_get_test_ids : W → W * outcome (list string);
  h_latest_run_successful : W → W * outcome bool;
  h_read_load_list : string → W → W * outcome (list string);
  h_setUp : cmd → W → W * outcome unit;
  h_list_tests : cmd → W → W * outcome (list string);
  h_run_tests : cmd → W → W * outcome nat;
  h_cleanUp : cmd → W → W * outcome unit;
  h_popen : string → W → W * outcome unit;
  h_load : nat → bool → bool → option string → W → W * outcome Z;
  (** the calls [_run_tests(cmd)] and [_prior_tests(latest_run, id)] as
      the isolation analysis writes them, with fewer arguments than the
      two definitions have parameters: what such a call does is left to
      the world, see [as_written] and [as_repaired] *)
  h_call_run_tests : cmd → W → W * outcome Z;
  h_call_prior_tests : run → string → W → W * outcome (list string)
}.

Context (H : collaborators).

Record state : Type := State {
  world : W;
  trace : list event
}.

(** Code that runs on the state and returns, raises or diverges.  A
    [while True] loop is given a number of iterations, [fuel], and diverges
    when it has used them up. *)
Definition M (A : Type) : Type := state → state * res A.

Definition ret {A} (a : A) : M A := λ st, (st, Ok a).

Definition raise {A} (e : exn) : M A := λ st, (st, Raise e).

Definition diverge {A} : M A := λ st, (st, Diverged).

Definition bind {A B} (m : M A) (k : A → M B) : M B := λ st,
  match m st with
  | (st', Ok a) => k a st'
  | (st', Raise e) => (st', Raise e)
  | (st', Diverged) => (st', Diverged)
  end.

(** A call to a collaborator: the world moves on and the trace grows. *)
Definition perform {A} (c : call) (h : W → W * outcome A) : M A := λ st,
  let '(w, o) := h (world st) in
  (State w (trace st ++ [Event c (has_returned o)]), to_res o).

(** A call whose effect is only recorded. *)
Definition tell (c : call) : M unit := perform c (λ w, (w, Returned ())).

(** [try: body finally: fin]: [fin] runs once the body has returned or
    raised; an exception of [fin] replaces the outcome of the body. *)
Definition try_finally {A} (body : M A) (fin : M unit) : M A := λ st,
  match body st with
  | (st', Diverged) => (st', Diverged)
  | (st', r) =>
      match fin st' with
      | (st'', Ok _) => (st'', r)
      | (st'', Raise e) => (st'', Raise e)
      | (st'', Diverged) => (st'', Diverged)
      end
  end.

Notation "x <- m ;; k" := (bind m (λ x, k))
  (at level 100, m at next level, right associativity).
Notation "m ;; k" := (bind m (λ _, k))
  (at level 100, right associativity).

(** *** [_find_failing] *)

Definition _find_failing : M (list string) :=
  failing_run <- perform GetFailing (h_get_failing H) ;;
  ret (td_id <$> filter (λ td, td_status td = "fail") failing_run).

(** *** [_run_tests]: the execution primitive *)

Definition get_run_command (ids regexes : option (list string)) : M cmd :=
  perform (GetRunCommand (Cmd ids regexes)) (λ w, (w, Returned (Cmd ids regexes))).

(** The inner function [run_tests] of [_run_tests]. *)
Definition run_tests_batch (c : cmd)
    (failing analyze_isolation isolated subunit_out : bool)
    (combine_id : option string) : M Z :=
  run_procs <- perform (RunTests c) (h_run_tests H c) ;;
  let partial := failing || analyze_isolation || isolated in
  if decide (run_procs = 0%nat) then
    tell (StdoutWrite "The specified regex doesn't match with anything") ;;
    ret 1
  else
    perform (Load run_procs partial subunit_out combine_id)
      (h_load H run_procs partial subunit_out combine_id).

(** Reading the latest run back: [summary.wasSuccessful()] decides whether
    the result is replaced by 1. *)
Definition recheck (result : Z) : M Z :=
  successful <- perform LatestRunSummary (h_latest_run_successful H) ;;
  ret (if successful : bool then result else 1).

(** One pass through the body of [while True] in [_run_tests]. *)
Definition iteration_batch (c : cmd)
    (failing analyze_isolation isolated subunit_out : bool)
    (combine_id : option string) : M Z :=
  result <- run_tests_batch c failing analyze_isolation isolated subunit_out
              combine_id ;;
  if subunit_out then
    perform OpenRepo (h_open_repo H) ;;
    recheck result
  else ret result.

(** [while True: result = ...; if result: return result] *)
Fixpoint until_failure_loop (fuel : nat) (iteration : M Z) : M Z :=
  match fuel with
  | O => diverge
  | S fuel' =>
      result <- iteration ;;
      if decide (result ≠ 0) then ret result
      else until_failure_loop fuel' iteration
  end.

Definition _run_tests (c : cmd)
    (failing analyze_isolation isolated until_failure subunit_out : bool)
    (combine_id : option string) (fuel : nat) : M Z :=
  perform (SetUp c) (h_setUp H c) ;;
  try_finally
    (if until_failure then
       until_failure_loop fuel
         (iteration_batch c failing analyze_isolation isolated subunit_out
            combine_id)
     else
       run_tests_batch c failing analyze_isolation isolated subunit_out
         combine_id)
    (perform (CleanUp c) (h_cleanUp H c)).

(** *** The ad-hoc path of [run_command] *)

Definition adhoc_command (o : options) : string :=
  String.string_of_list_ascii (NoDiscover.run_cmd (no_discover o)).

(** The inner function [run_tests] of the [no_discover] branch. *)
Definition run_tests_adhoc (o : options) (combine_id : option string) : M Z :=
  perform (Popen (adhoc_command o)) (h_popen H (adhoc_command o)) ;;
  perform (Load 1 (partial o) (subunit_out o) combine_id)
    (h_load H 1%nat (partial o) (subunit_out o) combine_id).

(** One pass through the body of [while True] in the [no_discover] branch.
    Its test is [if subunit:], and [subunit] is the module imported at the
    top of the file, which is true whatever [subunit_out] is. *)
Definition iteration_adhoc (o : options) (combine_id : option string) : M Z :=
  result <- run_tests_adhoc o combine_id ;;
  recheck result.

Definition run_adhoc (o : options) (combine_id : option string) (fuel : nat)
    : M Z :=
  if until_failure o then
    until_failure_loop fuel (iteration_adhoc o combine_id)
  else run_tests_adhoc o combine_id.

(** *** The isolated mode *)

(** [for test_id in ids], with the running maximum [result]. *)
Fixpoint isolated_loop (o : options) (combine_id : option string) (fuel : nat)
    (ids : list string) (result : Z) : M Z :=
  match ids with
  | [] => ret result
  | test_id :: ids' =>
      c <- get_run_command (Some [test_id]) (filters o) ;;
      run_result <- _run_tests c (failing o) (analyze_isolation o) (isolated o)
                      (until_failure o) (subunit_out o) combine_id fuel ;;
      isolated_loop o combine_id fuel ids'
        (if decide (result < run_result) then run_result else result)
  end.

(** The discovery pass: [setUp], then [list_tests] under [finally: cleanUp]. *)
Definition discover (c : cmd) : M (list string) :=
  perform (SetUp c) (h_setUp H c) ;;
  try_finally (perform (ListTests c) (h_list_tests H c))
    (perform (CleanUp c) (h_cleanUp H c)).

Definition run_isolated (o : options) (combine_id : option string) (fuel : nat)
    (c : cmd) : M Z :=
  ids <- discover c ;;
  isolated_loop o combine_id fuel ids 0.

(** *** The isolation analysis *)

Definition unknown_cause : string := "unknown - no conflicts".

(** Stage one: the ids that do not fail on their own. *)
Fixpoint stage_one (ids : list string) (spurious_failures : gset string)
    : M (gset string) :=
  match ids with
  | [] => ret spurious_failures
  | test_id :: ids' =>
      c <- get_run_command (Some [test_id]) None ;;
      code <- perform (Call_run_tests c) (h_call_run_tests H c) ;;
      if decide (code = 0) then
        perform LatestId (h_latest_id H) ;;
        run_ids <- perform GetTestIds (h_get_test_ids H) ;;
        stage_one ids'
          (if bool_decide (test_id ∈ run_ids)
           then {[test_id]} ∪ spurious_failures else spurious_failures)
      else stage_one ids' spurious_failures
  end.

(** [while width:] for one spurious failure. *)
Fixpoint bisect_loop (fuel : nat) (spurious_failure : string)
    (candidate_causes : list string) (bottom top width : Z)
    (test_conflicts : gmap string string) : M (gmap string string) :=
  match fuel with
  | O => diverge
  | S fuel' =>
      if decide (width = 0) then ret test_conflicts
      else
        let check_width := (width + 1) / 2 in
        c <- get_run_command
               (Some (slice candidate_causes bottom (bottom + check_width)
                      ++ [spurious_failure])) None ;;
        perform (Call_run_tests c) (h_call_run_tests H c) ;;
        failing_run <- perform GetFailing (h_get_failing H) ;;
        let found_fail := bool_decide (spurious_failure ∈ td_id <$> failing_run) in
        if found_fail then
          let top := bottom + check_width in
          if decide (width = 1) then
            match candidate_causes !! Z.to_nat bottom with
            | Some cause =>
                bisect_loop fuel' spurious_failure candidate_causes bottom top 0
                  (<[spurious_failure := cause]> test_conflicts)
            | None => raise IndexError
            end
          else
            bisect_loop fuel' spurious_failure candidate_causes bottom top
              (top - bottom) test_conflicts
        else
          let bottom := bottom + check_width in
          if decide (width = 1) then
            bisect_loop fuel' spurious_failure candidate_causes bottom top 0
              test_conflicts
          else
            bisect_loop fuel' spurious_failure candidate_causes bottom top
              (top - bottom) test_conflicts
  end.

(** The search for one spurious failure over its candidate causes, and the
    entry that closes it. *)
Definition bisect (spurious_failure : string) (candidate_causes : list string)
    (test_conflicts : gmap string string) : M (gmap string string) :=
  let bottom := 0 in
  let top := len candidate_causes in
  let width := top - bottom in
  test_conflicts <- bisect_loop (S (Z.to_nat width)) spurious_failure
                      candidate_causes bottom top width test_conflicts ;;
  match test_conflicts !! spurious_failure with
  | None => ret (<[spurious_failure := unknown_cause]> test_conflicts)
  | Some _ => ret test_conflicts
  end.

(** Stage two: [for spurious_failure in spurious_failures]. *)
Fixpoint stage_two (latest_run : run) (spurious_failures : list string)
    (test_conflicts : gmap string string) : M (gmap string string) :=
  match spurious_failures with
  | [] => ret test_conflicts
  | spurious_failure :: rest =>
      candidate_causes <-
        perform (Call_prior_tests spurious_failure)
          (h_call_prior_tests H latest_run spurious_failure) ;;
      test_conflicts <- bisect spurious_failure candidate_causes test_conflicts ;;
      stage_two latest_run rest test_conflicts
  end.

(** The report and the exit code.  The code lists the rows in the order of
    the dictionary, which is the order in which the set of spurious
    failures was walked; Python does not fix that order, and the model
    takes the order of the keys. *)
Definition report (test_conflicts : gmap string string) : M Z :=
  if decide (test_conflicts = ∅) then ret 0
  else
    tell (OutputTable (("failing test", "caused by test")
                       :: map_to_list test_conflicts)) ;;
    ret 3.

Definition analyze (ids : option (list string)) : M Z :=
  latest_run <- perform GetLatestRun (h_get_latest_run H) ;;
  match ids with
  | None => raise TypeError
  | Some ids =>
      spurious_failures <- stage_one ids ∅ ;;
      if decide (spurious_failures = ∅) then ret 0
      else
        test_conflicts <- stage_two latest_run (elements spurious_failures) ∅ ;;
        report test_conflicts
  end.

(** *** [run_command] *)

Definition open_repository (o : options) : M unit := λ st,
  match perform OpenRepo (h_open_repo H) st with
  | (st', Raise (External "RepositoryNotFound")) =>
      (if negb (config_found o) && negb (bool_decide (is_Some (test_path o)))
       then
         tell (StdoutWrite "No config file found and --test-path not specified. Either create or specify a .stestr.conf or use --test-path ") ;;
         raise (SystemExit 1)
       else perform InitialiseRepo (h_initialise_repo H)) st'
  | r => r
  end.

Definition run_command (o : options) (fuel : nat) : M Z :=
  open_repository o ;;
  combine_id <- (if combine o
                 then latest_id <- perform LatestId (h_latest_id H) ;;
                      ret (Some latest_id)
                 else ret None) ;;
  match no_discover o with
  | _ :: _ => run_adhoc o combine_id fuel
  | [] =>
      ids <- (if failing o || analyze_isolation o
              then ids <- _find_failing ;; ret (Some ids)
              else ret None) ;;
      ids <- (match load_list o with
              | Some path =>
                  list_ids <- perform (ReadLoadList path)
                                (h_read_load_list H path) ;;
                  ret (Some match ids with
                            | None => list_ids
                            | Some ids => filter (λ x, x ∈ ids) list_ids
                            end)
              | None => ret ids
              end) ;;
      if negb (analyze_isolation o) then
        c <- get_run_command ids (filters o) ;;
        if isolated o then run_isolated o combine_id fuel c
        else _run_tests c (failing o) (analyze_isolation o) (isolated o)
               (until_failure o) (subunit_out o) combine_id fuel
      else analyze ids
  end.

(** *** The trace of a piece of code *)

(** [m] only appends to the trace, and every event it appends satisfies
    [P]. *)
Definition emits {A} (P : event → Prop) (m : M A) : Prop :=
  ∀ st, ∃ delta, trace (m st).1 = trace st ++ delta ∧ Forall P delta.

Lemma emits_ret {A} P (a : A) : emits P (ret a).
Proof. intros st. exists []. by rewrite app_nil_r. Qed.

Lemma emits_raise {A} P e : emits P (@raise A e).
Proof. intros st. exists []. by rewrite app_nil_r. Qed.

Lemma emits_diverge {A} P : emits P (@diverge A).
Proof. intros st. exists []. by rewrite app_nil_r. Qed.

Lemma emits_perform {A} (P : event → Prop) c (h : W → W * outcome A) :
  (∀ b, P (Event c b)) → emits P (perform c h).
Proof.
  intros HP st. unfold perform. destruct (h (world st)) as [w o].
  exists [Event c (has_returned o)]. split; [done|]. by apply Forall_singleton.
Qed.

Lemma emits_bind {A B} P (m : M A) (k : A → M B) :
  emits P m → (∀ a, emits P (k a)) → emits P (bind m k).
Proof.
  intros Hm Hk st. unfold bind. destruct (Hm st) as (d1 & E1 & F1).
  destruct (m st) as [st1 [a|e|]]; simpl in *.
  - destruct (Hk a st1) as (d2 & E2 & F2). exists (d1 ++ d2).
    rewrite E2, E1, app_assoc. split; [done|]. by apply Forall_app.
  - by exists d1.
  - by exists d1.
Qed.

Lemma emits_try_finally {A} P (body : M A) (fin : M unit) :
  emits P body → emits P fin → emits P (try_finally body fin).
Proof.
  intros Hb Hf st. unfold try_finally. destruct (Hb st) as (d1 & E1 & F1).
  destruct (body st) as [st1 r]; simpl in *.
  destruct (Hf st1) as (d2 & E2 & F2).
  destruct (fin st1) as [st2 rf]; simpl in *.
  assert (∃ delta, trace st2 = trace st ++ delta ∧ Forall P delta) as Hboth.
  { exists (d1 ++ d2). rewrite E2, E1, app_assoc. split; [done|].
    by apply Forall_app. }
  destruct r; [destruct rf; done..|by exists d1].
Qed.

Lemma emits_weaken {A} (P Q : event → Prop) (m : M A) :
  (∀ e, P e → Q e) → emits P m → emits Q m.
Proof.
  intros HPQ Hm st. destruct (Hm st) as (d & E & F). exists d. split; [done|].
  eapply Forall_impl; eauto.
Qed.

Lemma emits_until_failure_loop P fuel (iteration : M Z) :
  emits P iteration → emits P (until_failure_loop fuel iteration).
Proof.
  intros Hit. induction fuel as [|fuel IH]; simpl.
  - apply emits_diverge.
  - apply emits_bind; [done|]. intros r. destruct (decide (r ≠ 0)); [|done].
    apply emits_ret.
Qed.

(** The number of events of a trace that are the call [c]. *)
Definition count_call (c : call) (t : list event) : nat :=
  length (filter (λ e, ev_call e = c) t).

Lemma count_call_app c t1 t2 :
  count_call c (t1 ++ t2) = (count_call c t1 + count_call c t2)%nat.
Proof. unfold count_call. by rewrite filter_app, length_app. Qed.

Lemma count_call_absent c t :
  Forall (λ e, ev_call e ≠ c) t → count_call c t = 0%nat.
Proof.
  unfold count_call. induction 1 as [|e t He _ IH]; [done|].
  by rewrite filter_cons, decide_False.
Qed.

(** *** Facts about [_run_tests] *)

(** The events of the inner [run_tests] and of one loop iteration. *)
Definition body_event (c : cmd) (e : event) : Prop :=
  match ev_call e with
  | RunTests c' => c' = c
  | StdoutWrite _ | Load _ _ _ _ | OpenRepo | LatestRunSummary => True
  | _ => False
  end.

Lemma run_tests_batch_emits c f a i s cid :
  emits (body_event c) (run_tests_batch c f a i s cid).
Proof.
  unfold run_tests_batch. apply emits_bind; [by apply emits_perform|].
  intros n. destruct (decide (n = 0%nat)).
  - apply emits_bind; [by apply emits_perform|]. intros _. apply emits_ret.
  - by apply emits_perform.
Qed.

Lemma recheck_emits c result : emits (body_event c) (recheck result).
Proof.
  unfold recheck. apply emits_bind; [by apply emits_perform|].
  intros ok. apply emits_ret.
Qed.

Lemma iteration_batch_emits c f a i s cid :
  emits (body_event c) (iteration_batch c f a i s cid).
Proof.
  unfold iteration_batch. apply emits_bind; [apply run_tests_batch_emits|].
  intros r. destruct s; [|apply emits_ret].
  apply emits_bind; [by apply emits_perform|]. intros _. apply recheck_emits.
Qed.

(** The body of [_run_tests], between [setUp] and [cleanUp]. *)
Definition run_body (c : cmd) (f a i u s : bool) (cid : option string)
    (fuel : nat) : M Z :=
  if u then until_failure_loop fuel (iteration_batch c f a i s cid)
  else run_tests_batch c f a i s cid.

Lemma run_body_emits c f a i u s cid fuel :
  emits (body_event c) (run_body c f a i u s cid fuel).
Proof.
  unfold run_body. destruct u.
  - apply emits_until_failure_loop, iteration_batch_emits.
  - apply run_tests_batch_emits.
Qed.

Lemma _run_tests_unfold c f a i u s cid fuel st :
  _run_tests c f a i u s cid fuel st
  = match h_setUp H c (world st) with
    | (w, Returned _) =>
        try_finally (run_body c f a i u s cid fuel)
          (perform (CleanUp c) (h_cleanUp H c))
          (State w (trace st ++ [Event (SetUp c) true]))
    | (w, Raised e) => (State w (trace st ++ [Event (SetUp c) false]), Raise e)
    end.
Proof.
  unfold _run_tests, bind, perform at 1.
  by destruct (h_setUp H c (world st)) as [w [[]|e]].
Qed.

(** [cleanUp] brackets the run: when [setUp] raised nothing else happens;
    when it returned and the body did not run forever, the events of the
    body are followed by exactly one [cleanUp], whatever the body returned
    or raised. *)
Lemma _run_tests_bracket c f a i u s cid fuel st :
  let r := (_run_tests c f a i u s cid fuel st).2 in
  let t := trace (_run_tests c f a i u s cid fuel st).1 in
  match (h_setUp H c (world st)).2 with
  | Raised e => r = Raise e ∧ t = trace st ++ [Event (SetUp c) false]
  | Returned _ =>
      ∃ body,
        Forall (body_event c) body
        ∧ ((r = Diverged ∧ t = trace st ++ Event (SetUp c) true :: body)
           ∨ (r ≠ Diverged
              ∧ ∃ b, t = trace st ++ Event (SetUp c) true :: body
                                    ++ [Event (CleanUp c) b]))
  end.
Proof.
  intros r t. subst r t. rewrite _run_tests_unfold.
  destruct (h_setUp H c (world st)) as [w [[]|e]]; simpl; [|done].
  set (st1 := State w (trace st ++ [Event (SetUp c) true])).
  destruct (run_body_emits c f a i u s cid fuel st1) as (body & E & F).
  exists body. split; [done|]. unfold try_finally.
  destruct (run_body c f a i u s cid fuel st1) as [st2 r]; simpl in *.
  assert (trace st2 = trace st ++ Event (SetUp c) true :: body) as E'.
  { rewrite E. by rewrite <- app_assoc. }
  unfold perform. destruct (h_cleanUp H c (world st2)) as [w' o]; simpl.
  assert (trace st2 ++ [Event (CleanUp c) (has_returned o)]
          = trace st ++ Event (SetUp c) true :: body
              ++ [Event (CleanUp c) (has_returned o)]) as E''.
  { rewrite E'. by rewrite <- app_assoc. }
  destruct r as [z|e|]; [| |by left]; right.
  - destruct o as [[]|e]; simpl; (split; [done|]); eexists; exact E''.
  - destruct o as [[]|e']; simpl; (split; [done|]); eexists; exact E''.
Qed.

(** *** Facts about the until-failure loop *)

(** The state after [n] passes through the loop body. *)
Fixpoint after (n : nat) (iteration : M Z) (st : state) : state :=
  match n with
  | O => st
  | S n' => after n' iteration (iteration st).1
  end.

Lemma after_S n (iteration : M Z) st :
  after (S n) iteration st = (iteration (after n iteration st)).1.
Proof.
  revert st. induction n as [|n IH]; intros st; [done|].
  simpl in *. by rewrite IH.
Qed.

Lemma until_failure_loop_stops fuel (iteration : M Z) st k r :
  (∀ j, (j < k)%nat → (iteration (after j iteration st)).2 = Ok 0) →
  (iteration (after k iteration st)).2 = Ok r → r ≠ 0 → (k < fuel)%nat →
  until_failure_loop fuel iteration st = (after (S k) iteration st, Ok r).
Proof.
  revert st fuel. induction k as [|k IH]; intros st fuel Hzero Hk Hr Hfuel.
  - destruct fuel as [|fuel]; [lia|]. simpl in *. unfold bind.
    destruct (iteration st) as [st1 r1]; simpl in *. subst r1.
    by rewrite decide_True.
  - destruct fuel as [|fuel]; [lia|]. simpl. unfold bind.
    pose proof (Hzero 0%nat ltac:(lia)) as H0. simpl in H0.
    destruct (iteration st) as [st1 r1] eqn:E; simpl in *. subst r1.
    rewrite decide_False by (intros ?; done).
    rewrite E in Hk. simpl in Hk.
    apply IH; [|done|done|lia].
    intros j Hj. specialize (Hzero (S j) ltac:(lia)). simpl in Hzero.
    by rewrite E in Hzero.
Qed.

Lemma until_failure_loop_passes fuel (iteration : M Z) st :
  (∀ j, (j < fuel)%nat → (iteration (after j iteration st)).2 = Ok 0) →
  until_failure_loop fuel iteration st = (after fuel iteration st, Diverged).
Proof.
  revert st. induction fuel as [|fuel IH]; intros st Hzero; [done|].
  simpl. unfold bind.
  pose proof (Hzero 0%nat ltac:(lia)) as H0. simpl in H0.
  destruct (iteration st) as [st1 r1] eqn:E; simpl in *. subst r1.
  rewrite decide_False by (intros ?; done).
  apply IH. intros j Hj. specialize (Hzero (S j) ltac:(lia)). simpl in Hzero.
  by rewrite E in Hzero.
Qed.

Lemma bind_assoc {A B C} (m : M A) (k : A → M B) (k' : B → M C) st :
  bind (bind m k) k' st = bind m (λ a, bind (k a) k') st.
Proof. unfold bind. by destruct (m st) as [st1 [a|e|]]. Qed.

(** A call followed by code that never makes that call adds it once. *)
Lemma count_call_perform_then {A B} c (h : W → W * outcome A) (k : A → M B) st :
  (∀ a, emits (λ e, ev_call e ≠ c) (k a)) →
  count_call c (trace (bind (perform c h) k st).1)
  = S (count_call c (trace st)).
Proof.
  intros Hk. unfold bind, perform. destruct (h (world st)) as [w [a|e]]; simpl.
  - set (st1 := State w _). destruct (Hk a st1) as (d & E & F).
    rewrite E. unfold st1. simpl. rewrite !count_call_app.
    rewrite (count_call_absent c d) by done.
    unfold count_call at 2. rewrite filter_cons, decide_True by done. simpl. lia.
  - rewrite count_call_app. unfold count_call at 2.
    rewrite filter_cons, decide_True by done. simpl. lia.
Qed.

Lemma iteration_batch_one_run c f a i s cid st :
  count_call (RunTests c) (trace (iteration_batch c f a i s cid st).1)
  = S (count_call (RunTests c) (trace st)).
Proof.
  unfold iteration_batch, run_tests_batch. rewrite bind_assoc.
  apply count_call_perform_then. intros n.
  apply emits_bind.
  - destruct (decide (n = 0%nat)).
    + apply emits_bind; [by apply emits_perform|]. intros _. apply emits_ret.
    + by apply emits_perform.
  - intros r. destruct s; [|apply emits_ret].
    apply emits_bind; [by apply emits_perform|]. intros _.
    apply emits_bind; [by apply emits_perform|]. intros ok. apply emits_ret.
Qed.

Lemma after_runs n c f a i s cid st :
  count_call (RunTests c) (trace (after n (iteration_batch c f a i s cid) st))
  = (count_call (RunTests c) (trace st) + n)%nat.
Proof.
  induction n as [|n IH]; [simpl; lia|].
  rewrite after_S, iteration_batch_one_run, IH. lia.
Qed.

(** *** Facts about the re-check of the result *)

(** In [_run_tests] the re-check happens exactly under [subunit_out]:
    without it the pass is the inner [run_tests] and nothing else. *)
Lemma iteration_batch_plain c f a i cid st :
  iteration_batch c f a i false cid st = run_tests_batch c f a i false cid st.
Proof.
  unfold iteration_batch, bind.
  by destruct (run_tests_batch c f a i false cid st) as [st1 [r|e|]].
Qed.

Lemma iteration_batch_subunit c f a i cid st st1 code :
  run_tests_batch c f a i true cid st = (st1, Ok code) →
  iteration_batch c f a i true cid st
  = (perform OpenRepo (h_open_repo H) ;; recheck code) st1.
Proof. intros E. unfold iteration_batch, bind at 1. by rewrite E. Qed.

(** In the [no_discover] branch the re-check happens whatever [subunit_out]
    is. *)
Lemma iteration_adhoc_rechecks o cid st st1 code :
  run_tests_adhoc o cid st = (st1, Ok code) →
  iteration_adhoc o cid st = recheck code st1.
Proof. intros E. unfold iteration_adhoc, bind at 1. by rewrite E. Qed.

Lemma recheck_result code st :
  recheck code st
  = match h_latest_run_successful H (world st) with
    | (w, Returned ok) =>
        (State w (trace st ++ [Event LatestRunSummary true]),
         Ok (if ok then code else 1))
    | (w, Raised e) =>
        (State w (trace st ++ [Event LatestRunSummary false]), Raise e)
    end.
Proof.
  unfold recheck, bind, perform.
  by destruct (h_latest_run_successful H (world st)) as [w [ok|e]].
Qed.

(** *** Facts about the isolated mode *)

(** The runs of command [c] a trace has begun and not yet cleaned up:
    returned [setUp]s minus [cleanUp]s. *)
Definition open_runs (c : cmd) (t : list event) : Z :=
  Z.of_nat (length (filter (λ e, e = Event (SetUp c) true) t))
  - Z.of_nat (count_call (CleanUp c) t).

Lemma open_runs_app c t1 t2 :
  open_runs c (t1 ++ t2) = open_runs c t1 + open_runs c t2.
Proof.
  unfold open_runs. rewrite count_call_app, filter_app, length_app. lia.
Qed.

Lemma open_runs_absent c t :
  Forall (λ e, ev_call e ≠ SetUp c ∧ ev_call e ≠ CleanUp c) t →
  open_runs c t = 0.
Proof.
  intros Ht. unfold open_runs. rewrite count_call_absent.
  - replace (filter (λ e, e = Event (SetUp c) true) t) with (@nil event); [done|].
    induction Ht as [|e t [He _] _ IH]; [done|].
    rewrite filter_cons, decide_False; [done|]. intros ->. by apply He.
  - eapply Forall_impl; [exact Ht|]. by intros e [_ ?].
Qed.

(** Code that, unless it runs forever, cleans up every run it began. *)
Definition balanced {A} (m : M A) : Prop :=
  ∀ st, ∃ delta,
    trace (m st).1 = trace st ++ delta
    ∧ ((m st).2 ≠ Diverged → ∀ c, open_runs c delta = 0).

Lemma balanced_emits {A} (m : M A) :
  emits (λ e, ∀ c, ev_call e ≠ SetUp c ∧ ev_call e ≠ CleanUp c) m →
  balanced m.
Proof.
  intros Hm st. destruct (Hm st) as (d & E & F). exists d. split; [done|].
  intros _ c. apply open_runs_absent. eapply Forall_impl; [exact F|].
  intros e He. apply He.
Qed.

Lemma balanced_bind {A B} (m : M A) (k : A → M B) :
  balanced m → (∀ a, balanced (k a)) → balanced (bind m k).
Proof.
  intros Hm Hk st. unfold bind. destruct (Hm st) as (d1 & E1 & B1).
  destruct (m st) as [st1 [a|e|]]; simpl in *.
  - destruct (Hk a st1) as (d2 & E2 & B2). exists (d1 ++ d2).
    rewrite E2, E1, app_assoc. split; [done|]. intros Hr c.
    rewrite open_runs_app, B1, B2; done.
  - exists d1. split; [done|]. intros _. by apply B1.
  - exists d1. split; [done|]. by intros ?.
Qed.

Lemma body_event_not_bracket c e :
  body_event c e → ∀ c', ev_call e ≠ SetUp c' ∧ ev_call e ≠ CleanUp c'.
Proof. unfold body_event. intros He c'. by destruct (ev_call e). Qed.

Lemma open_runs_bracket c c' body b :
  Forall (λ e, ∀ c0, ev_call e ≠ SetUp c0 ∧ ev_call e ≠ CleanUp c0) body →
  open_runs c' (Event (SetUp c) true :: body ++ [Event (CleanUp c) b]) = 0.
Proof.
  intros Hbody.
  change (Event (SetUp c) true :: body ++ [Event (CleanUp c) b])
    with ([Event (SetUp c) true] ++ body ++ [Event (CleanUp c) b]).
  rewrite !open_runs_app. rewrite (open_runs_absent c' body).
  - unfold open_runs, count_call. rewrite !filter_cons, !filter_nil. simpl.
    destruct (decide (c = c')) as [->|Hne].
    + rewrite !decide_True by done. by destruct b.
    + rewrite !decide_False by congruence. done.
  - eapply Forall_impl; [exact Hbody|]. intros e He. apply He.
Qed.

Lemma _run_tests_balanced c f a i u s cid fuel :
  balanced (_run_tests c f a i u s cid fuel).
Proof.
  intros st. pose proof (_run_tests_bracket c f a i u s cid fuel st) as Hb.
  simpl in Hb. destruct (h_setUp H c (world st)).2 as [[]|e].
  - destruct Hb as (body & Hbody & [[Hr Ht]|[Hr [b Ht]]]).
    + eexists. split; [exact Ht|]. by rewrite Hr.
    + eexists. split; [exact Ht|]. intros _ c'. apply open_runs_bracket.
      eapply Forall_impl; [exact Hbody|]. apply body_event_not_bracket.
  - destruct Hb as [Hr Ht]. eexists. split; [exact Ht|]. intros _ c'.
    unfold open_runs, count_call. rewrite !filter_cons, !filter_nil. simpl.
    rewrite !decide_False by congruence. done.
Qed.

Lemma discover_unfold c st :
  discover c st
  = match h_setUp H c (world st) with
    | (w, Raised e) => (State w (trace st ++ [Event (SetUp c) false]), Raise e)
    | (w, Returned _) =>
        let '(w1, o1) := h_list_tests H c w in
        let '(w2, o2) := h_cleanUp H c w1 in
        (State w2 (trace st ++ [Event (SetUp c) true;
                                Event (ListTests c) (has_returned o1);
                                Event (CleanUp c) (has_returned o2)]),
         match o2 with
         | Returned _ => to_res o1
         | Raised e => Raise e
         end)
    end.
Proof.
  unfold discover, bind, try_finally, perform.
  destruct (h_setUp H c (world st)) as [w [[]|e]]; simpl; [|done].
  destruct (h_list_tests H c w) as [w1 o1]; simpl.
  destruct o1 as [ids|e1]; simpl;
    destruct (h_cleanUp H c w1) as [w2 [[]|e2]]; simpl;
    by rewrite <- !app_assoc.
Qed.

Lemma discover_balanced c : balanced (discover c).
Proof.
  intros st. rewrite discover_unfold.
  destruct (h_setUp H c (world st)) as [w [[]|e]].
  - destruct (h_list_tests H c w) as [w1 o1].
    destruct (h_cleanUp H c w1) as [w2 o2]. simpl.
    eexists. split; [done|]. intros _ c'.
    apply (open_runs_bracket c c' [Event (ListTests c) _]).
    by apply Forall_singleton.
  - eexists. split; [done|]. intros _ c'.
    unfold open_runs, count_call. rewrite !filter_cons, !filter_nil. simpl.
    rewrite !decide_False by congruence. done.
Qed.

Lemma get_run_command_balanced ids regexes :
  balanced (get_run_command ids regexes).
Proof. apply balanced_emits, emits_perform. done. Qed.

Lemma isolated_loop_balanced o cid fuel ids result :
  balanced (isolated_loop o cid fuel ids result).
Proof.
  revert result. induction ids as [|id ids IH]; intros result; simpl.
  - apply balanced_emits, emits_ret.
  - apply balanced_bind; [apply get_run_command_balanced|]. intros c.
    apply balanced_bind; [apply _run_tests_balanced|]. intros rr. apply IH.
Qed.

(** One per-test run: the command for the single id, then [_run_tests]. *)
Definition single_run (o : options) (cid : option string) (fuel : nat)
    (test_id : string) : M Z :=
  c <- get_run_command (Some [test_id]) (filters o) ;;
  _run_tests c (failing o) (analyze_isolation o) (isolated o)
    (until_failure o) (subunit_out o) cid fuel.

(** The exit codes of the per-test runs of [ids], started in [st] one after
    the other; [None] when one of them raises or runs forever. *)
Fixpoint per_test_codes (o : options) (cid : option string) (fuel : nat)
    (ids : list string) (st : state) : option (list Z) :=
  match ids with
  | [] => Some []
  | test_id :: ids' =>
      match single_run o cid fuel test_id st with
      | (st', Ok code) => (code ::.) <$> per_test_codes o cid fuel ids' st'
      | _ => None
      end
  end.

Lemma isolated_loop_cons o cid fuel id ids result st :
  isolated_loop o cid fuel (id :: ids) result st
  = bind (single_run o cid fuel id)
      (λ run_result, isolated_loop o cid fuel ids
                       (if decide (result < run_result) then run_result
                        else result)) st.
Proof. simpl. unfold single_run. by rewrite bind_assoc. Qed.

Lemma isolated_loop_codes o cid fuel ids result st code :
  (isolated_loop o cid fuel ids result st).2 = Ok code →
  ∃ codes,
    per_test_codes o cid fuel ids st = Some codes
    ∧ length codes = length ids
    ∧ code = foldl Z.max result codes.
Proof.
  revert result st. induction ids as [|id ids IH]; intros result st Hr.
  - simpl in Hr. injection Hr as <-. by exists [].
  - rewrite isolated_loop_cons in Hr. unfold bind in Hr. simpl.
    destruct (single_run o cid fuel id st) as [st1 [rr|e|]]; [|done..].
    apply IH in Hr as (codes & Hcodes & Hlen & ->).
    exists (rr :: codes). rewrite Hcodes. simpl. split_and!; [done|by rewrite Hlen|].
    f_equal. destruct (decide (result < rr)); lia.
Qed.

Lemma foldl_max_bounds (codes : list Z) (result : Z) :
  result ≤ foldl Z.max result codes
  ∧ (∀ code, code ∈ codes → code ≤ foldl Z.max result codes)
  ∧ (foldl Z.max result codes = result ∨ foldl Z.max result codes ∈ codes).
Proof.
  revert result. induction codes as [|c codes IH]; intros result; simpl.
  - split_and!; [lia| |by left]. by intros code ?%elem_of_nil.
  - destruct (IH (Z.max result c)) as (H1 & H2 & H3). split_and!.
    + lia.
    + intros code [->|Hin]%elem_of_cons; [lia|by apply H2].
    + destruct H3 as [H3|H3].
      * rewrite H3. destruct (Z.max_spec result c) as [[_ ->]|[_ ->]];
          [right; left|by left].
      * right. by right.
Qed.

Definition is_list_tests (e : event) : bool :=
  match ev_call e with
  | ListTests _ => true
  | _ => false
  end.

Lemma _run_tests_emits (P : event → Prop) c f a i u s cid fuel :
  (∀ e, body_event c e → P e) →
  (∀ b, P (Event (SetUp c) b)) → (∀ b, P (Event (CleanUp c) b)) →
  emits P (_run_tests c f a i u s cid fuel).
Proof.
  intros Hbody Hs Hc. unfold _run_tests. fold (run_body c f a i u s cid fuel).
  apply emits_bind; [by apply emits_perform|]. intros _.
  apply emits_try_finally; [|by apply emits_perform].
  eapply emits_weaken; [exact Hbody|]. apply run_body_emits.
Qed.

Lemma isolated_loop_no_discovery o cid fuel ids result :
  emits (λ e, is_list_tests e = false) (isolated_loop o cid fuel ids result).
Proof.
  revert result. induction ids as [|id ids IH]; intros result; simpl.
  - apply emits_ret.
  - apply emits_bind; [by apply emits_perform|]. intros c.
    apply emits_bind; [|intros rr; apply IH].
    apply _run_tests_emits; [|done..].
    intros [call b]. unfold body_event, is_list_tests. simpl. by destruct call.
Qed.

(** *** Facts about the bisection *)

Definition is_probe (e : event) : bool :=
  match ev_call e with
  | Call_run_tests _ => true
  | _ => false
  end.

(** The number of times a trace calls [_run_tests(cmd)]. *)
Definition probes (t : list event) : Z :=
  Z.of_nat (length (filter (λ e, is_probe e = true) t)).

Lemma probes_app t1 t2 : probes (t1 ++ t2) = probes t1 + probes t2.
Proof. unfold probes. rewrite filter_app, length_app. lia. Qed.

(** The probes a range of [width] candidates can take. *)
Definition probe_bound (width : Z) : Z :=
  if decide (width ≤ 0) then 0 else Z.log2_up width + 1.

Lemma log2_up_half (w : Z) :
  2 ≤ w → Z.log2_up ((w + 1) / 2) + 1 ≤ Z.log2_up w.
Proof.
  intros Hw. pose proof (Z.log2_up_pos w ltac:(lia)) as Hpos.
  assert (Z.log2_up ((w + 1) / 2) ≤ Z.log2_up w - 1); [|lia].
  assert (0 < (w + 1) / 2) as Hhalf by (apply Z.div_str_pos; lia).
  apply Z.log2_up_le_pow2; [done|].
  assert (w ≤ 2 ^ Z.log2_up w) as Hle by (apply Z.log2_up_le_pow2; lia).
  assert (2 ^ Z.log2_up w = 2 * 2 ^ (Z.log2_up w - 1)) as Hpow.
  { rewrite <- Z.pow_succ_r by lia. f_equal. lia. }
  rewrite Hpow in Hle.
  assert ((w + 1) / 2 < 2 ^ (Z.log2_up w - 1) + 1); [|lia].
  apply Z.div_lt_upper_bound; lia.
Qed.

Lemma probe_bound_pos (w : Z) : 1 ≤ w → probe_bound w = Z.log2_up w + 1.
Proof. intros Hw. unfold probe_bound. by rewrite decide_False by lia. Qed.

Lemma probe_bound_nonneg (w : Z) : 0 ≤ probe_bound w.
Proof.
  unfold probe_bound. destruct (decide (w ≤ 0)); [done|].
  pose proof (Z.log2_up_nonneg w). lia.
Qed.

Lemma probe_bound_step (w : Z) :
  1 ≤ w →
  1 ≤ probe_bound w
  ∧ (w ≠ 1 → probe_bound ((w + 1) / 2) + 1 ≤ probe_bound w
             ∧ probe_bound (w - (w + 1) / 2) + 1 ≤ probe_bound w).
Proof.
  intros Hw. rewrite (probe_bound_pos w) by done.
  pose proof (Z.log2_up_nonneg w). split; [lia|]. intros Hne.
  pose proof (log2_up_half w ltac:(lia)) as Hhalf.
  assert (0 < (w + 1) / 2) as Hpos by (apply Z.div_str_pos; lia).
  assert (w - (w + 1) / 2 ≤ (w + 1) / 2).
  { pose proof (Z.div_mod (w + 1) 2 ltac:(lia)).
    pose proof (Z.mod_pos_bound (w + 1) 2 ltac:(lia)). lia. }
  split.
  - rewrite probe_bound_pos by lia. lia.
  - unfold probe_bound. destruct (decide (w - (w + 1) / 2 ≤ 0)); [lia|].
    pose proof (Z.log2_up_le_mono (w - (w + 1) / 2) ((w + 1) / 2) ltac:(lia)).
    lia.
Qed.

(** A specification of code: it does not run forever, it calls
    [_run_tests(cmd)] at most [n] times, it returns when every call it made
    returned, and what it returns satisfies [Q]. *)
Definition spec {A} (m : M A) (n : Z) (Q : A → Prop) : Prop :=
  ∀ st, ∃ delta,
    trace (m st).1 = trace st ++ delta
    ∧ probes delta ≤ n
    ∧ (m st).2 ≠ Diverged
    ∧ (Forall (λ e, ev_returned e = true) delta → ∃ a, (m st).2 = Ok a)
    ∧ (∀ a, (m st).2 = Ok a → Q a).

Lemma spec_ret {A} (a : A) (Q : A → Prop) : Q a → spec (ret a) 0 Q.
Proof.
  intros HQ st. exists []. simpl. rewrite app_nil_r.
  split_and!; [done|done|done|by eauto|by intros ? [= <-]].
Qed.

Lemma spec_perform {A} c (h : W → W * outcome A) :
  spec (perform c h) (if is_probe (Event c true) then 1 else 0) (λ _, True).
Proof.
  intros st. unfold perform. destruct (h (world st)) as [w o].
  exists [Event c (has_returned o)]. simpl. split_and!.
  - done.
  - unfold probes, is_probe. rewrite filter_cons. simpl.
    destruct c; simpl; try done.
  - by destruct o.
  - intros Hall. rewrite Forall_singleton in Hall. simpl in Hall.
    destruct o; [by eauto|done].
  - done.
Qed.

Lemma spec_bind {A B} (m : M A) (k : A → M B) n1 n2 (Q1 : A → Prop)
    (Q2 : B → Prop) :
  spec m n1 Q1 → (∀ a, Q1 a → spec (k a) n2 Q2) → 0 ≤ n2 →
  spec (bind m k) (n1 + n2) Q2.
Proof.
  intros Hm Hk Hn st. unfold bind.
  destruct (Hm st) as (d1 & E1 & P1 & D1 & R1 & HQ1).
  destruct (m st) as [st1 [a|e|]]; simpl in *.
  - destruct (Hk a (HQ1 a eq_refl) st1) as (d2 & E2 & P2 & D2 & R2 & HQ2).
    exists (d1 ++ d2). rewrite E2, E1, app_assoc, probes_app.
    split_and!; [done|lia|done| |done].
    intros [_ Hall]%Forall_app. by apply R2.
  - exists d1. split_and!; [done|lia|done| |done].
    intros Hall. by apply R1 in Hall as [? ?].
  - done.
Qed.

Lemma spec_weaken {A} (m : M A) n n' (Q Q' : A → Prop) :
  spec m n Q → n ≤ n' → (∀ a, Q a → Q' a) → spec m n' Q'.
Proof.
  intros Hm Hn HQ st. destruct (Hm st) as (d & E & P & D & R & HQ1).
  exists d. split_and!; [done|lia|done|done|]. intros a Ha. by apply HQ, HQ1.
Qed.

Lemma spec_after_call {A B} c (h : W → W * outcome A) (k : A → M B) n
    (Q : B → Prop) :
  is_probe (Event c true) = false → 0 ≤ n →
  (∀ a, spec (k a) n Q) → spec (bind (perform c h) k) n Q.
Proof.
  intros Hc Hn Hk. replace n with (0 + n) by lia.
  eapply spec_bind; [|intros a _; apply Hk|done].
  pose proof (spec_perform c h) as Hp. by rewrite Hc in Hp.
Qed.

Lemma spec_after_probe {A B} c (h : W → W * outcome A) (k : A → M B) n
    (Q : B → Prop) :
  0 ≤ n → (∀ a, spec (k a) n Q) → spec (bind (perform c h) k) (1 + n) Q.
Proof.
  intros Hn Hk. eapply spec_bind; [|intros a _; apply Hk|done].
  eapply spec_weaken; [apply spec_perform| |done].
  by destruct (is_probe _).
Qed.

Lemma spec_perform_plain {A} c (h : W → W * outcome A) :
  is_probe (Event c true) = false → spec (perform c h) 0 (λ _, True).
Proof. intros Hc. pose proof (spec_perform c h) as Hp. by rewrite Hc in Hp. Qed.

Lemma spec_try_finally {A} (body : M A) (fin : M unit) n (Q : A → Prop) :
  spec body n Q → spec fin 0 (λ _, True) → spec (try_finally body fin) n Q.
Proof.
  intros Hb Hf st. unfold try_finally.
  destruct (Hb st) as (d1 & E1 & P1 & D1 & R1 & Q1).
  destruct (body st) as [st1 r]; simpl in *.
  destruct (Hf st1) as (d2 & E2 & P2 & D2 & R2 & _).
  destruct (fin st1) as [st2 rf]; simpl in *.
  assert (trace st2 = trace st ++ d1 ++ d2) as E by (by rewrite E2, E1, app_assoc).
  assert (probes (d1 ++ d2) ≤ n) as P by (rewrite probes_app; lia).
  destruct r as [a|e|]; [| |done]; (destruct rf as [[]|e'|]; [| |done]); simpl;
    exists (d1 ++ d2); (split_and!; [done|done|done| |done]).
  - by eauto.
  - intros [_ Hall]%Forall_app. by apply R2 in Hall as [? ?].
  - intros [Hall _]%Forall_app. by apply R1 in Hall as [? ?].
  - intros [Hall _]%Forall_app. by apply R1 in Hall as [? ?].
Qed.

(** *** The isolated mode returns *)

Lemma run_tests_batch_spec c f a i s cid :
  spec (run_tests_batch c f a i s cid) 0 (λ _, True).
Proof.
  unfold run_tests_batch. apply spec_after_call; [done..|]. intros n.
  destruct (decide (n = 0%nat)).
  - apply spec_after_call; [done..|]. intros _. by apply spec_ret.
  - by apply spec_perform_plain.
Qed.

Lemma _run_tests_once_spec c f a i s cid fuel :
  spec (_run_tests c f a i false s cid fuel) 0 (λ _, True).
Proof.
  unfold _run_tests. apply spec_after_call; [done..|]. intros _.
  apply spec_try_finally; [apply run_tests_batch_spec|].
  by apply spec_perform_plain.
Qed.

Lemma discover_spec c : spec (discover c) 0 (λ _, True).
Proof.
  unfold discover. apply spec_after_call; [done..|]. intros _.
  apply spec_try_finally; by apply spec_perform_plain.
Qed.

Lemma isolated_loop_spec o cid fuel ids result :
  until_failure o = false →
  spec (isolated_loop o cid fuel ids result) 0 (λ _, True).
Proof.
  intros Hu. revert result. induction ids as [|id ids IH]; intros result; simpl.
  - by apply spec_ret.
  - unfold get_run_command. apply spec_after_call; [done..|]. intros c.
    rewrite Hu. replace 0 with (0 + 0) by done.
    eapply spec_bind; [apply _run_tests_once_spec| |done].
    intros rr _. apply IH.
Qed.

Lemma run_isolated_spec o cid fuel c :
  until_failure o = false →
  spec (run_isolated o cid fuel c) 0 (λ _, True).
Proof.
  intros Hu. unfold run_isolated. replace 0 with (0 + 0) by done.
  eapply spec_bind; [apply discover_spec| |done].
  intros ids _. by apply isolated_loop_spec.
Qed.

Lemma bisect_loop_spec fuel sf (cands : list string) bottom top width
    (tc : gmap string string) :
  0 ≤ bottom → 0 ≤ width →
  (0 < width → top = bottom + width ∧ top ≤ len cands) →
  (Z.to_nat width < fuel)%nat →
  spec (bisect_loop fuel sf cands bottom top width tc) (probe_bound width)
    (λ m, m = tc ∨ ∃ cause, cause ∈ cands ∧ m = <[sf := cause]> tc).
Proof.
  revert bottom top width tc.
  induction fuel as [|fuel IH]; intros bottom top width tc Hb Hw Hinv Hfuel;
    [lia|].
  simpl. destruct (decide (width = 0)) as [->|Hne].
  { apply spec_ret. by left. }
  destruct (Hinv ltac:(lia)) as [Htop Hlen].
  destruct (probe_bound_step width ltac:(lia)) as [Hone Hstep].
  assert (0 < (width + 1) / 2) as Hcw by (apply Z.div_str_pos; lia).
  assert ((width + 1) / 2 ≤ width) as Hcw' by (apply Z.div_le_upper_bound; lia).
  assert (probe_bound 0 = 0) as Hzero by done.
  unfold get_run_command.
  apply spec_after_call; [done|apply probe_bound_nonneg|]. intros c.
  apply spec_weaken with (n := 1 + (probe_bound width - 1))
                         (Q := λ m, m = tc ∨ ∃ cause, cause ∈ cands
                                                      ∧ m = <[sf := cause]> tc);
    [|lia|done].
  apply spec_after_probe; [lia|]. intros _.
  apply spec_after_call; [done|lia|]. intros failing_run.
  destruct (bool_decide (sf ∈ td_id <$> failing_run)).
  - destruct (decide (width = 1)) as [->|Hne1].
    + destruct (cands !! Z.to_nat bottom) as [cause|] eqn:Ecause.
      * eapply spec_weaken; [apply IH; [lia|lia|lia|lia]|lia|].
        intros m [->|(cause' & Hin & ->)]; right.
        -- exists cause. split; [|done]. by apply list_elem_of_lookup_2 in Ecause.
        -- exists cause'. split; [done|]. by rewrite insert_insert_eq.
      * apply lookup_ge_None in Ecause. unfold len in *. lia.
    + replace (bottom + (width + 1) / 2 - bottom) with ((width + 1) / 2) by lia.
      eapply spec_weaken; [apply IH; [lia|lia| |]|lia|done].
      * intros _. lia.
      * assert ((width + 1) / 2 < width); [|lia].
        apply Z.div_lt_upper_bound; lia.
  - destruct (decide (width = 1)) as [->|Hne1].
    + eapply spec_weaken; [apply IH; [lia|lia|lia|lia]|lia|done].
    + destruct (Hstep Hne1) as [_ Hrest].
      replace (top - (bottom + (width + 1) / 2)) with (width - (width + 1) / 2)
        by lia.
      eapply spec_weaken; [apply IH; [lia|lia| |]|lia|done].
      * intros _. lia.
      * lia.
Qed.

Lemma bisect_spec sf (cands : list string) (tc : gmap string string) :
  tc !! sf = None →
  spec (bisect sf cands tc) (probe_bound (len cands))
    (λ m, ∃ v, m = <[sf := v]> tc ∧ (v ∈ cands ∨ v = unknown_cause)).
Proof.
  intros Hfresh. unfold bisect.
  replace (probe_bound (len cands)) with (probe_bound (len cands - 0) + 0)
    by (rewrite Z.sub_0_r; lia).
  eapply spec_bind; [apply bisect_loop_spec; unfold len; lia| |done].
  intros m [->|(cause & Hin & ->)]; simpl.
  - rewrite Hfresh. apply spec_ret. exists unknown_cause. by split; [|right].
  - rewrite lookup_insert_eq. apply spec_ret. exists cause. by split; [|left].
Qed.

(** *** The claim about the bisection loop *)

(** The loop of the search, whatever the call [_run_tests(cmd)] does: for
    [n >= 1] candidate causes it does not run forever and makes the call at
    most [ceil(log2 n) + 1] times; if every call it makes returns, it
    returns the conflict map with exactly one new entry for the failure,
    valued with one of the candidates or with the unknown marker. *)
Theorem bisect_terminates_within_bound sf (cands : list string)
    (tc : gmap string string) st :
  cands ≠ [] → tc !! sf = None →
  ∃ delta,
    trace (bisect sf cands tc st).1 = trace st ++ delta
    ∧ (bisect sf cands tc st).2 ≠ Diverged
    ∧ probes delta ≤ Z.log2_up (len cands) + 1
    ∧ (Forall (λ e, ev_returned e = true) delta →
       ∃ m, (bisect sf cands tc st).2 = Ok m)
    ∧ (∀ m, (bisect sf cands tc st).2 = Ok m →
       ∃ v, m = <[sf := v]> tc ∧ (v ∈ cands ∨ v = unknown_cause)).
Proof.
  intros Hne Hfresh.
  destruct (bisect_spec sf cands tc Hfresh st) as (d & E & P & D & R & Q).
  exists d. split_and!; [done|done| |done|done].
  rewrite probe_bound_pos in P; [done|].
  unfold len. destruct cands; [done|simpl; lia].
Qed.

(** *** Facts about the conflict map *)

(** What code returns, when it returns. *)
Definition returns {A} (m : M A) (Q : A → Prop) : Prop :=
  ∀ st a, (m st).2 = Ok a → Q a.

Lemma returns_bind {A B} (m : M A) (k : A → M B) (Q1 : A → Prop)
    (Q : B → Prop) :
  returns m Q1 → (∀ a, Q1 a → returns (k a) Q) → returns (bind m k) Q.
Proof.
  intros Hm Hk st b. unfold bind. specialize (Hm st).
  destruct (m st) as [st1 [a|e|]]; [|done..].
  apply Hk. by apply Hm.
Qed.

Lemma returns_any {A} (m : M A) : returns m (λ _, True).
Proof. done. Qed.

Lemma returns_spec {A} (m : M A) n (Q : A → Prop) : spec m n Q → returns m Q.
Proof. intros Hm st a Ha. destruct (Hm st) as (d & _ & _ & _ & _ & HQ). auto. Qed.

(** Stage two adds one entry per spurious failure and drops none. *)
Lemma stage_two_returns latest_run (sfs : list string)
    (tc : gmap string string) :
  NoDup sfs → (∀ sf, sf ∈ sfs → tc !! sf = None) →
  returns (stage_two latest_run sfs tc)
    (λ m, tc ⊆ m ∧ dom m = list_to_set sfs ∪ dom tc).
Proof.
  revert tc. induction sfs as [|sf sfs IH]; intros tc Hnd Hfresh.
  - intros st m [= <-]. split; [done|].
    rewrite list_to_set_nil. by rewrite (left_id_L ∅ (∪)).
  - apply NoDup_cons in Hnd as [Hnotin Hnd]. simpl.
    eapply returns_bind; [apply returns_any|]. intros cands _.
    eapply returns_bind.
    { eapply returns_spec, bisect_spec. apply Hfresh. left. }
    intros tc' (v & -> & _). intros st m Hm.
    destruct (IH (<[sf := v]> tc) Hnd) with (st := st) (a := m)
      as [Hsub Hdom]; [|done|].
    + intros sf' Hin. rewrite lookup_insert_ne; [apply Hfresh; by right|].
      by intros ->.
    + split.
      * etrans; [|exact Hsub]. apply insert_subseteq, Hfresh. left.
      * rewrite Hdom, dom_insert_L.
        by rewrite (assoc_L (∪)), (comm_L (∪) (list_to_set sfs) {[sf]}).
Qed.

Lemma report_returns (tc : gmap string string) :
  returns (report tc) (λ code, (tc = ∅ ∧ code = 0) ∨ (tc ≠ ∅ ∧ code = 3)).
Proof.
  intros st code. unfold report. destruct (decide (tc = ∅)) as [->|Hne].
  - intros [= <-]. by left.
  - unfold bind, tell, perform. simpl. intros [= <-]. by right.
Qed.

(** *** Rewriting with the outcome of a call *)

Lemma perform_returned {A} c (h : W → W * outcome A) st w a :
  h (world st) = (w, Returned a) →
  perform c h st = (State w (trace st ++ [Event c true]), Ok a).
Proof. intros E. unfold perform. by rewrite E. Qed.

Lemma bind_ok {A B} (m : M A) (k : A → M B) st st' a :
  m st = (st', Ok a) → bind m k st = k a st'.
Proof. intros E. unfold bind. by rewrite E. Qed.

(** ** Further properties of the run command *)

Lemma perform_raised {A} c (h : W → W * outcome A) st w e :
  h (world st) = (w, Raised e) →
  perform c h st = (State w (trace st ++ [Event c false]), Raise e).
Proof. intros E. unfold perform. by rewrite E. Qed.

Lemma bind_raise {A B} (m : M A) (k : A → M B) st st' e :
  m st = (st', Raise e) → bind m k st = (st', Raise e).
Proof. intros E. unfold bind. by rewrite E. Qed.

Lemma returns_try_finally {A} (body : M A) (fin : M unit) (Q : A → Prop) :
  returns body Q → returns (try_finally body fin) Q.
Proof.
  intros Hb st a. unfold try_finally. specialize (Hb st).
  destruct (body st) as [st1 [a'|e|]]; [| |done];
    destruct (fin st1) as [st2 [[]|e'|]]; simpl; try done.
  intros [= <-]. by apply Hb.
Qed.

(** *** The repository cannot be opened *)

Definition no_config_message : string :=
  "No config file found and --test-path not specified. Either create or specify a .stestr.conf or use --test-path ".

(** Without a repository, without a config file and without a test path,
    [run_command] writes its message and exits with status 1: it does not
    create a repository and runs nothing. *)
Theorem missing_repository_without_config_exits o fuel st w :
  h_open_repo H (world st) = (w, Raised (External "RepositoryNotFound")) →
  config_found o = false → test_path o = None →
  run_command o fuel st
  = (State w (trace st ++ [Event OpenRepo false;
                           Event (StdoutWrite no_config_message) true]),
     Raise (SystemExit 1)).
Proof.
  intros Hopen Hconf Hpath. unfold run_command.
  assert (open_repository o st
          = (State w (trace st ++ [Event OpenRepo false;
                                   Event (StdoutWrite no_config_message) true]),
             Raise (SystemExit 1))) as Eopen.
  { unfold open_repository. rewrite (perform_raised _ _ _ w _ Hopen).
    rewrite Hconf, Hpath. simpl. unfold bind, tell, perform, raise. simpl.
    by rewrite <- app_assoc. }
  by rewrite (bind_raise _ _ _ _ _ Eopen).
Qed.

(** A missing repository is created when there is a config file or a test
    path; any other exception of the opening is passed on as it is, and then
    nothing is created and nothing runs. *)
Theorem missing_repository_is_initialised o fuel st w e :
  h_open_repo H (world st) = (w, Raised e) →
  (e = External "RepositoryNotFound" →
   config_found o = true ∨ is_Some (test_path o) →
   open_repository o st
   = perform InitialiseRepo (h_initialise_repo H)
       (State w (trace st ++ [Event OpenRepo false])))
  ∧ (e ≠ External "RepositoryNotFound" →
     run_command o fuel st
     = (State w (trace st ++ [Event OpenRepo false]), Raise e)).
Proof.
  intros Hopen. split.
  - intros -> Hconf. unfold open_repository.
    rewrite (perform_raised _ _ _ w _ Hopen).
    destruct Hconf as [->|Hpath]; [done|].
    rewrite bool_decide_eq_true_2 by done. by rewrite andb_false_r.
  - intros Hne. unfold run_command.
    assert (open_repository o st
            = (State w (trace st ++ [Event OpenRepo false]), Raise e)) as Eopen.
    { unfold open_repository. rewrite (perform_raised _ _ _ w _ Hopen).
      destruct e as [| | | | | |what]; try done.
      destruct (decide (what = "RepositoryNotFound")) as [->|Hw]; [done|].
      destruct what as [|a1 what]; [done|].
      repeat (match goal with
              | |- context [match ?x with EmptyString => _ | String _ _ => _ end] =>
                  destruct x; [done|]
              | |- context [match ?x with Ascii _ _ _ _ _ _ _ _ => _ end] =>
                  destruct x
              | |- context [if ?b then _ else _] => destruct b; try done
              end).
      all: try done. }
    by rewrite (bind_raise _ _ _ _ _ Eopen).
Qed.

(** *** The edges of [_run_tests] *)

Definition no_match_message : string :=
  "The specified regex doesn't match with anything".

Lemma try_finally_returned {A} (body : M A) (fin : M unit) st st1 st2 (r : res A) :
  body st = (st1, r) → r ≠ Diverged → fin st1 = (st2, Ok ()) →
  try_finally body fin st = (st2, r).
Proof.
  intros Eb Hr Ef. unfold try_finally. rewrite Eb, Ef. by destruct r.
Qed.

Lemma try_finally_raised {A} (body : M A) (fin : M unit) st st1 st2 (r : res A) e :
  body st = (st1, r) → r ≠ Diverged → fin st1 = (st2, Raise e) →
  try_finally body fin st = (st2, Raise e).
Proof.
  intros Eb Hr Ef. unfold try_finally. rewrite Eb, Ef. by destruct r.
Qed.

Lemma run_body_first_pass c f a i u s cid fuel st st1 (r : res Z) :
  run_tests_batch c f a i s cid st = (st1, r) →
  (∀ code, r = Ok code → code ≠ 0 ∧ (u = true → s = false)) →
  u = false ∨ fuel ≠ 0%nat →
  run_body c f a i u s cid fuel st = (st1, r).
Proof.
  intros Eb Hr Hfuel. unfold run_body. destruct u; [|done].
  destruct Hfuel as [|Hfuel]; [done|]. destruct fuel as [|fuel]; [done|].
  simpl. unfold bind at 1, iteration_batch, bind at 1. rewrite Eb.
  destruct r as [code|e|]; [|done..].
  destruct (Hr code eq_refl) as [Hcode Hs]. rewrite (Hs eq_refl).
  unfold ret. by rewrite decide_True.
Qed.

(** When the worker command starts no process, [_run_tests] writes that
    nothing matched and returns 1; the loader is not called, [cleanUp] is,
    and with [until_failure] this first pass already ends the loop. *)
Theorem no_matching_test_returns_one c f a i u s cid fuel st w1 w2 w3 :
  h_setUp H c (world st) = (w1, Returned ()) →
  h_run_tests H c w1 = (w2, Returned 0%nat) →
  h_cleanUp H c w2 = (w3, Returned ()) →
  u = false ∨ (s = false ∧ fuel ≠ 0%nat) →
  _run_tests c f a i u s cid fuel st
  = (State w3 (trace st ++ [Event (SetUp c) true; Event (RunTests c) true;
                            Event (StdoutWrite no_match_message) true;
                            Event (CleanUp c) true]),
     Ok 1).
Proof.
  intros Hs Hr Hc Hu. rewrite _run_tests_unfold, Hs.
  set (st1 := State w1 _).
  assert (run_tests_batch c f a i s cid st1
          = (State w2 ((trace st ++ [Event (SetUp c) true])
                       ++ [Event (RunTests c) true]
                       ++ [Event (StdoutWrite no_match_message) true]), Ok 1))
    as Eb.
  { unfold run_tests_batch. erewrite bind_ok; [|by apply perform_returned].
    simpl. unfold bind, tell, perform, ret. simpl. by rewrite <- app_assoc. }
  assert (run_body c f a i u s cid fuel st1
          = (State w2 ((trace st ++ [Event (SetUp c) true])
                       ++ [Event (RunTests c) true]
                       ++ [Event (StdoutWrite no_match_message) true]), Ok 1))
    as Ebody.
  { apply run_body_first_pass; [exact Eb| |].
    - intros code [= <-]. split; [done|]. intros ->. by destruct Hu as [|[? _]].
    - destruct Hu as [|[_ ?]]; [by left|by right]. }
  erewrite try_finally_returned; [|exact Ebody|done|by apply perform_returned].
  simpl. by rewrite <- !app_assoc.
Qed.

(** When [setUp] raises, [_run_tests] raises the same exception and does
    nothing else: no process is started and [cleanUp] is not called. *)
Theorem setUp_failure_skips_cleanUp c f a i u s cid fuel st w e :
  h_setUp H c (world st) = (w, Raised e) →
  _run_tests c f a i u s cid fuel st
  = (State w (trace st ++ [Event (SetUp c) false]), Raise e).
Proof. intros Hs. by rewrite _run_tests_unfold, Hs. Qed.

(** When starting the processes raises, [cleanUp] is still called, once;
    the exception that leaves [_run_tests] is the one of [cleanUp] if it
    raises too, and the original one otherwise. *)
Theorem cleanUp_runs_after_error c f a i u s cid fuel st w1 w2 w3 e oc :
  h_setUp H c (world st) = (w1, Returned ()) →
  h_run_tests H c w1 = (w2, Raised e) →
  h_cleanUp H c w2 = (w3, oc) →
  u = false ∨ fuel ≠ 0%nat →
  _run_tests c f a i u s cid fuel st
  = (State w3 (trace st ++ [Event (SetUp c) true; Event (RunTests c) false;
                            Event (CleanUp c) (has_returned oc)]),
     match oc with
     | Returned _ => Raise e
     | Raised e' => Raise e'
     end).
Proof.
  intros Hs Hr Hc Hu. rewrite _run_tests_unfold, Hs.
  set (st1 := State w1 _).
  assert (run_body c f a i u s cid fuel st1
          = (State w2 ((trace st ++ [Event (SetUp c) true])
                       ++ [Event (RunTests c) false]), Raise e)) as Eb.
  { apply run_body_first_pass; [|done|done].
    unfold run_tests_batch. by erewrite bind_raise; [|by apply perform_raised]. }
  destruct oc as [[]|e'].
  - erewrite try_finally_returned; [|exact Eb|done|by apply perform_returned].
    simpl. by rewrite <- !app_assoc.
  - erewrite try_finally_raised; [|exact Eb|done|by apply perform_raised].
    simpl. by rewrite <- !app_assoc.
Qed.

(** *** Until-failure runs do not report success *)

Lemma until_failure_loop_nonzero fuel (iteration : M Z) :
  returns (until_failure_loop fuel iteration) (λ r, r ≠ 0).
Proof.
  induction fuel as [|fuel IH]; [done|]. simpl.
  apply returns_bind with (Q1 := λ _, True); [done|]. intros r _.
  destruct (decide (r ≠ 0)); [|apply IH]. by intros st a [= <-].
Qed.

(** With [until_failure], outside the isolated mode and the analysis,
    [run_command] never returns 0: it ends with a non-zero code, with an
    exception, or not at all. *)
Theorem until_failure_never_returns_zero o fuel st :
  until_failure o = true → isolated o = false → analyze_isolation o = false →
  (run_command o fuel st).2 ≠ Ok 0.
Proof.
  intros Hu Hi Ha Hr.
  assert (returns (run_command o fuel) (λ r, r ≠ 0)) as Hret; [|by eapply Hret].
  unfold run_command.
  apply returns_bind with (Q1 := λ _, True); [done|]. intros _ _.
  apply returns_bind with (Q1 := λ _, True); [done|]. intros cid _.
  destruct (no_discover o).
  - apply returns_bind with (Q1 := λ _, True); [done|]. intros ids _.
    apply returns_bind with (Q1 := λ _, True); [done|]. intros ids' _.
    rewrite Ha, Hi, Hu. simpl.
    apply returns_bind with (Q1 := λ _, True); [done|]. intros c _.
    unfold _run_tests.
    apply returns_bind with (Q1 := λ _, True); [done|]. intros _ _.
    apply returns_try_finally, until_failure_loop_nonzero.
  - unfold run_adhoc. rewrite Hu. apply until_failure_loop_nonzero.
Qed.

(** *** The until-failure loop of the ad-hoc path *)

Lemma iteration_adhoc_one_process o cid st :
  count_call (Popen (adhoc_command o)) (trace (iteration_adhoc o cid st).1)
  = S (count_call (Popen (adhoc_command o)) (trace st)).
Proof.
  unfold iteration_adhoc, run_tests_adhoc. rewrite bind_assoc.
  apply count_call_perform_then. intros _.
  apply emits_bind; [by apply emits_perform|]. intros r.
  unfold recheck. apply emits_bind; [by apply emits_perform|]. intros ok.
  apply emits_ret.
Qed.

(** With [no_discover] and [until_failure], the test is run again and
    again, one new process per pass, and the command returns the result of
    the first pass that computes a non-zero one. *)
Theorem adhoc_until_failure_returns_first_failure o cid st k r fuel :
  let it := iteration_adhoc o cid in
  until_failure o = true →
  (∀ j, (j < k)%nat → (it (after j it st)).2 = Ok 0) →
  (it (after k it st)).2 = Ok r → r ≠ 0 → (k < fuel)%nat →
  run_adhoc o cid fuel st = (after (S k) it st, Ok r)
  ∧ count_call (Popen (adhoc_command o)) (trace (after (S k) it st))
    = (count_call (Popen (adhoc_command o)) (trace st) + S k)%nat.
Proof.
  intros it Hu Hzero Hk Hr Hfuel. unfold run_adhoc. rewrite Hu. split.
  - by apply until_failure_loop_stops.
  - clear. induction (S k) as [|n IH]; [simpl; lia|].
    rewrite after_S. unfold it at 1. rewrite iteration_adhoc_one_process, IH. lia.
Qed.

(** *** The selection of the ids *)

(** With [--failing] and a load list, the worker command is built for
    exactly the listed ids that the failing run holds with the status
    [fail], and the run goes on as the execution primitive on that command,
    with its [partial] flag set. *)
Theorem failing_and_load_list_intersect o fuel st w1 w2 w3
    (failing_run : run) (listed : list string) path :
  no_discover o = [] → failing o = true → analyze_isolation o = false →
  isolated o = false → combine o = false → load_list o = Some path →
  h_open_repo H (world st) = (w1, Returned ()) →
  h_get_failing H w1 = (w2, Returned failing_run) →
  h_read_load_list H path w2 = (w3, Returned listed) →
  ∃ ids,
    (∀ x, x ∈ ids ↔
          x ∈ listed
          ∧ ∃ td, td ∈ failing_run ∧ td_status td = "fail" ∧ td_id td = x)
    ∧ run_command o fuel st
      = _run_tests (Cmd (Some ids) (filters o)) true false false
          (until_failure o) (subunit_out o) None fuel
          (State w3 (trace st ++ [Event OpenRepo true; Event GetFailing true;
                                  Event (ReadLoadList path) true;
                                  Event (GetRunCommand
                                           (Cmd (Some ids) (filters o))) true])).
Proof.
  intros Hnd Hf Ha Hi Hco Hll Hopen Hfail Hlist.
  set (failing_ids := td_id <$> filter (λ td, td_status td = "fail") failing_run).
  set (ids := filter (λ x, x ∈ failing_ids) listed).
  exists ids. split.
  { intros x. subst ids failing_ids. rewrite list_elem_of_filter, list_elem_of_fmap.
    split.
    - intros [(td & -> & Htd) Hx]. apply list_elem_of_filter in Htd as [Hs Htd].
      split; [done|]. by exists td.
    - intros [Hx (td & Htd & Hs & <-)]. split; [|done].
      exists td. split; [done|]. by apply list_elem_of_filter. }
  unfold run_command. rewrite Hnd, Hf, Ha, Hi, Hco, Hll. simpl.
  assert (open_repository o st
          = (State w1 (trace st ++ [Event OpenRepo true]), Ok ())) as Eopen.
  { unfold open_repository. by rewrite (perform_returned _ _ _ w1 ()). }
  erewrite bind_ok; [|exact Eopen].
  erewrite bind_ok; [|reflexivity].
  rewrite bind_assoc. unfold _find_failing. rewrite bind_assoc.
  erewrite bind_ok; [|by apply perform_returned].
  erewrite bind_ok; [|reflexivity].
  erewrite bind_ok; [|reflexivity].
  rewrite bind_assoc. erewrite bind_ok; [|by apply perform_returned].
  erewrite bind_ok; [|reflexivity].
  unfold get_run_command. erewrite bind_ok; [|by apply perform_returned].
  simpl. by rewrite <- !app_assoc.
Qed.

(** *** An error in the isolated mode *)

Lemma isolated_loop_app o cid fuel ids1 ids2 result st :
  isolated_loop o cid fuel (ids1 ++ ids2) result st
  = bind (isolated_loop o cid fuel ids1 result)
      (λ r, isolated_loop o cid fuel ids2 r) st.
Proof.
  revert result st. induction ids1 as [|id ids1 IH]; intros result st; [done|].
  change ((id :: ids1) ++ ids2) with (id :: (ids1 ++ ids2)).
  rewrite isolated_loop_cons. unfold bind at 2. rewrite isolated_loop_cons.
  unfold bind.
  destruct (single_run o cid fuel id st) as [st1 [rr|e|]]; [|done..].
  rewrite IH. done.
Qed.

(** The per-test runs are not shielded from each other's errors: when the
    run of one id raises after the runs before it returned, the loop ends
    there with that exception and the ids after it are not run. *)
Theorem isolated_run_error_ends_the_loop o cid fuel ids1 id ids2 result st
    st1 result1 st2 e :
  isolated_loop o cid fuel ids1 result st = (st1, Ok result1) →
  single_run o cid fuel id st1 = (st2, Raise e) →
  isolated_loop o cid fuel (ids1 ++ id :: ids2) result st = (st2, Raise e).
Proof.
  intros E1 E2. rewrite isolated_loop_app. erewrite bind_ok; [|exact E1].
  rewrite isolated_loop_cons. by erewrite bind_raise.
Qed.

(** *** What reaches the loader *)

(** The part of [run_command] after the repository is open and the id to
    combine with is known. *)
Definition dispatch (o : options) (fuel : nat) (combine_id : option string)
    : M Z :=
  match no_discover o with
  | _ :: _ => run_adhoc o combine_id fuel
  | [] =>
      ids <- (if failing o || analyze_isolation o
              then ids <- _find_failing ;; ret (Some ids)
              else ret None) ;;
      ids <- (match load_list o with
              | Some path =>
                  list_ids <- perform (ReadLoadList path)
                                (h_read_load_list H path) ;;
                  ret (Some match ids with
                            | None => list_ids
                            | Some ids => filter (λ x, x ∈ ids) list_ids
                            end)
              | None => ret ids
              end) ;;
      if negb (analyze_isolation o) then
        c <- get_run_command ids (filters o) ;;
        if isolated o then run_isolated o combine_id fuel c
        else _run_tests c (failing o) (analyze_isolation o) (isolated o)
               (until_failure o) (subunit_out o) combine_id fuel
      else analyze ids
  end.

Lemma run_command_dispatch o fuel :
  run_command o fuel
  = (open_repository o ;;
     combine_id <- (if combine o
                    then latest_id <- perform LatestId (h_latest_id H) ;;
                         ret (Some latest_id)
                    else ret None) ;;
     dispatch o fuel combine_id).
Proof. reflexivity. Qed.

Lemma open_repository_cases o st :
  open_repository o st = perform OpenRepo (h_open_repo H) st
  ∨ open_repository o st
    = (tell (StdoutWrite no_config_message) ;; raise (SystemExit 1))
        (perform OpenRepo (h_open_repo H) st).1
  ∨ open_repository o st
    = perform InitialiseRepo (h_initialise_repo H)
        (perform OpenRepo (h_open_repo H) st).1.
Proof.
  unfold open_repository.
  destruct (perform OpenRepo (h_open_repo H) st) as [st' r]. simpl.
  destruct r as [[]|e|]; simpl; [by left| |by left].
  destruct e as [| | | | | |what]; simpl; try by left.
  destruct (negb (config_found o) && negb (bool_decide (is_Some (test_path o))));
    repeat (match goal with
            | |- context [match ?x with EmptyString => _ | String _ _ => _ end] =>
                destruct x
            | |- context [match ?x with Ascii _ _ _ _ _ _ _ _ => _ end] =>
                destruct x
            | |- context [if ?b then _ else _] => destruct b
            end; try by left);
    first [by left | by (right; left) | by (right; right)].
Qed.

Lemma open_repository_emits (P : event → Prop) o :
  (∀ b, P (Event OpenRepo b)) → (∀ b, P (Event InitialiseRepo b)) →
  (∀ msg b, P (Event (StdoutWrite msg) b)) →
  emits P (open_repository o).
Proof.
  intros Hopen Hinit Hwrite st.
  destruct (emits_perform P OpenRepo (h_open_repo H) Hopen st) as (d1 & E1 & F1).
  destruct (open_repository_cases o st) as [->|[->| ->]].
  - by exists d1.
  - assert (emits P (tell (StdoutWrite no_config_message) ;; @raise unit (SystemExit 1)))
      as Hm.
    { apply emits_bind; [by apply emits_perform|]. intros _. apply emits_raise. }
    destruct (Hm (perform OpenRepo (h_open_repo H) st).1) as (d2 & E2 & F2).
    exists (d1 ++ d2). rewrite E2, E1, app_assoc. split; [done|].
    by apply Forall_app.
  - destruct (emits_perform P InitialiseRepo (h_initialise_repo H) Hinit
                (perform OpenRepo (h_open_repo H) st).1) as (d2 & E2 & F2).
    exists (d1 ++ d2). rewrite E2, E1, app_assoc. split; [done|].
    by apply Forall_app.
Qed.

(** An event satisfies [loads_with Q] when it is no call of the loader, or
    one whose arguments satisfy [Q]. *)
Definition loads_with (Q : nat → bool → bool → option string → Prop)
    (e : event) : Prop :=
  match ev_call e with
  | Load n p s r => Q n p s r
  | _ => True
  end.

Lemma loads_with_other Q c b :
  (∀ n p s r, c ≠ Load n p s r) → loads_with Q (Event c b).
Proof.
  intros Hc. unfold loads_with. simpl. destruct c; try done.
  by destruct (Hc streams partial0 subunit_out0 run_id).
Qed.

Lemma emits_get_run_command {B} P ids regexes (k : cmd → M B) :
  (∀ b, P (Event (GetRunCommand (Cmd ids regexes)) b)) →
  emits P (k (Cmd ids regexes)) →
  emits P (bind (get_run_command ids regexes) k).
Proof.
  intros Hc Hk st. unfold bind, get_run_command, perform. simpl.
  destruct (Hk (State (world st)
                  (trace st ++ [Event (GetRunCommand (Cmd ids regexes)) true])))
    as (d & E & F).
  exists (Event (GetRunCommand (Cmd ids regexes)) true :: d).
  rewrite E. simpl. rewrite <- app_assoc. split; [done|]. by apply Forall_cons.
Qed.

Lemma _run_tests_loads c f a i u s cid fuel :
  emits (loads_with (λ n p s' r,
           n ≠ 0%nat ∧ p = f || a || i ∧ s' = s ∧ r = cid))
    (_run_tests c f a i u s cid fuel).
Proof.
  assert (emits (loads_with (λ n p s' r,
                   n ≠ 0%nat ∧ p = f || a || i ∧ s' = s ∧ r = cid))
            (run_tests_batch c f a i s cid)) as Hbatch.
  { unfold run_tests_batch. apply emits_bind; [by apply emits_perform|].
    intros n. destruct (decide (n = 0%nat)).
    - apply emits_bind; [by apply emits_perform|]. intros _. apply emits_ret.
    - by apply emits_perform. }
  unfold _run_tests. apply emits_bind; [by apply emits_perform|]. intros _.
  apply emits_try_finally; [|by apply emits_perform].
  destruct u; [|done]. apply emits_until_failure_loop.
  unfold iteration_batch. apply emits_bind; [done|]. intros r.
  destruct s; [|apply emits_ret].
  apply emits_bind; [by apply emits_perform|]. intros _.
  unfold recheck. apply emits_bind; [by apply emits_perform|]. intros ok.
  apply emits_ret.
Qed.

Lemma isolated_loop_loads o cid fuel ids result :
  emits (loads_with (λ n p s r,
           n ≠ 0%nat ∧ p = failing o || analyze_isolation o || isolated o
           ∧ s = subunit_out o ∧ r = cid))
    (isolated_loop o cid fuel ids result).
Proof.
  revert result. induction ids as [|id ids IH]; intros result; simpl.
  - apply emits_ret.
  - apply emits_bind; [by apply emits_perform|]. intros c.
    apply emits_bind; [apply _run_tests_loads|]. intros rr. apply IH.
Qed.

(** The events of the isolation analysis. *)
Definition analysis_event (e : event) : Prop :=
  match ev_call e with
  | GetLatestRun | GetRunCommand _ | Call_run_tests _ | LatestId | GetTestIds
  | Call_prior_tests _ | GetFailing | OutputTable _ => True
  | _ => False
  end.

Lemma bisect_loop_events fuel sf cands bottom top width tc :
  emits analysis_event (bisect_loop fuel sf cands bottom top width tc).
Proof.
  revert bottom top width tc.
  induction fuel as [|fuel IH]; intros bottom top width tc; simpl.
  - apply emits_diverge.
  - destruct (decide (width = 0)); [apply emits_ret|].
    apply emits_bind; [by apply emits_perform|]. intros c.
    apply emits_bind; [by apply emits_perform|]. intros _.
    apply emits_bind; [by apply emits_perform|]. intros failing_run.
    destruct (bool_decide _); destruct (decide (width = 1)); try apply IH.
    destruct (cands !! Z.to_nat bottom); [apply IH|apply emits_raise].
Qed.

Lemma analyze_events ids : emits analysis_event (analyze ids).
Proof.
  unfold analyze. apply emits_bind; [by apply emits_perform|]. intros latest_run.
  destruct ids as [ids|]; [|apply emits_raise].
  apply emits_bind.
  { generalize (∅ : gset string). induction ids as [|id ids IH]; intros sp; simpl.
    - apply emits_ret.
    - apply emits_bind; [by apply emits_perform|]. intros c.
      apply emits_bind; [by apply emits_perform|]. intros code.
      destruct (decide (code = 0)); [|apply IH].
      apply emits_bind; [by apply emits_perform|]. intros _.
      apply emits_bind; [by apply emits_perform|]. intros run_ids. apply IH. }
  intros sp. destruct (decide (sp = ∅)); [apply emits_ret|].
  apply emits_bind.
  { generalize (∅ : gmap string string).
    induction (elements sp) as [|sf sfs IH]; intros tc; simpl.
    - apply emits_ret.
    - apply emits_bind; [by apply emits_perform|]. intros cands.
      apply emits_bind; [|intros tc'; apply IH].
      unfold bisect. apply emits_bind; [apply bisect_loop_events|]. intros tc'.
      destruct (tc' !! sf); apply emits_ret. }
  intros tc. unfold report. destruct (decide (tc = ∅)); [apply emits_ret|].
  apply emits_bind; [by apply emits_perform|]. intros _. apply emits_ret.
Qed.

Lemma dispatch_loads o fuel cid :
  emits (loads_with (λ n p s r,
           n ≠ 0%nat ∧ s = subunit_out o ∧ r = cid
           ∧ p = match no_discover o with
                 | [] => failing o || analyze_isolation o || isolated o
                 | _ => partial o
                 end))
    (dispatch o fuel cid).
Proof.
  set (P := loads_with _).
  assert (∀ c b, (∀ n p s r, c ≠ Load n p s r) → P (Event c b)) as Hother.
  { intros c b Hc. by apply loads_with_other. }
  unfold dispatch. destruct (no_discover o) as [|ch nd] eqn:Hnd.
  - apply emits_bind.
    { destruct (failing o || analyze_isolation o); [|apply emits_ret].
      apply emits_bind; [|intros ?; apply emits_ret].
      unfold _find_failing. apply emits_bind; [by apply emits_perform|].
      intros ?. apply emits_ret. }
    intros ids. apply emits_bind.
    { destruct (load_list o); [|apply emits_ret].
      apply emits_bind; [by apply emits_perform|]. intros ?. apply emits_ret. }
    intros ids'. destruct (negb (analyze_isolation o)).
    + apply emits_bind; [by apply emits_perform|]. intros c.
      destruct (isolated o) eqn:Hi.
      * unfold run_isolated. apply emits_bind.
        { unfold discover. apply emits_bind; [by apply emits_perform|].
          intros _. apply emits_try_finally; by apply emits_perform. }
        intros tests. eapply emits_weaken; [|apply isolated_loop_loads].
        intros [call b]. subst P. unfold loads_with. simpl.
        destruct call; try done. rewrite ?Hnd, ?Hi. intros (? & ? & ? & ?). done.
      * eapply emits_weaken; [|apply _run_tests_loads].
        intros [call b]. subst P. unfold loads_with. simpl.
        destruct call; try done. rewrite ?Hnd, ?Hi. intros (? & ? & ? & ?). done.
    + eapply emits_weaken; [|apply analyze_events].
      intros [call b]. subst P. unfold loads_with, analysis_event. simpl.
      by destruct call.
  - assert (emits P (run_tests_adhoc o cid)) as Hrun.
    { unfold run_tests_adhoc. apply emits_bind; [by apply emits_perform|].
      intros _. apply emits_perform. intros b. subst P. unfold loads_with.
      simpl. by rewrite ?Hnd. }
    unfold run_adhoc. destruct (until_failure o); [|done].
    apply emits_until_failure_loop. unfold iteration_adhoc.
    apply emits_bind; [done|]. intros r. unfold recheck.
    apply emits_bind; [by apply emits_perform|]. intros ok. apply emits_ret.
Qed.

(** Whatever the mode, the loader is only called with at least one stream
    and with the [subunit_out] of the command; its [partial] flag is the
    [partial] argument on the ad-hoc path only, and the disjunction
    [failing or analyze_isolation or isolated] everywhere else, where the
    [partial] argument is never looked at; without [combine] it is given no
    run id. *)
Theorem loader_call_arguments o fuel st :
  ∃ delta,
    trace (run_command o fuel st).1 = trace st ++ delta
    ∧ Forall (loads_with (λ n p s r,
                n ≠ 0%nat ∧ s = subunit_out o
                ∧ (combine o = false → r = None)
                ∧ p = match no_discover o with
                      | [] => failing o || analyze_isolation o || isolated o
                      | _ => partial o
                      end)) delta.
Proof.
  revert st. change (emits (loads_with (λ n p s r,
                n ≠ 0%nat ∧ s = subunit_out o
                ∧ (combine o = false → r = None)
                ∧ p = match no_discover o with
                      | [] => failing o || analyze_isolation o || isolated o
                      | _ => partial o
                      end)) (run_command o fuel)).
  rewrite run_command_dispatch.
  apply emits_bind; [by apply open_repository_emits|]. intros _.
  destruct (combine o) eqn:Hco.
  - apply emits_bind.
    { apply emits_bind; [by apply emits_perform|]. intros ?. apply emits_ret. }
    intros cid. eapply emits_weaken; [|apply dispatch_loads].
    intros [call b]. unfold loads_with. simpl. destruct call; try done.
    intros (? & ? & ? & ?). done.
  - intros st. unfold bind at 1, ret at 1.
    destruct (dispatch_loads o fuel None st) as (d & E & F).
    exists d. split; [done|]. eapply Forall_impl; [exact F|].
    intros [call b]. unfold loads_with. simpl. destruct call; try done.
    intros (? & ? & ? & ?). done.
Qed.

(** With [combine], the id of the latest run is read right after the
    repository is opened, before anything runs, and every later call of the
    loader is given that id as the run to add to. *)
Theorem combine_threads_latest_id o fuel st st1 w2 id :
  combine o = true →
  open_repository o st = (st1, Ok ()) →
  h_latest_id H (world st1) = (w2, Returned id) →
  ∃ delta,
    trace (run_command o fuel st).1 = trace st1 ++ Event LatestId true :: delta
    ∧ Forall (loads_with (λ _ _ _ r, r = Some id)) delta.
Proof.
  intros Hco Hopen Hid. rewrite run_command_dispatch.
  erewrite bind_ok; [|exact Hopen]. rewrite Hco, bind_assoc.
  erewrite bind_ok; [|by apply perform_returned].
  erewrite bind_ok; [|reflexivity].
  destruct (dispatch_loads o fuel (Some id)
              (State w2 (trace st1 ++ [Event LatestId true]))) as (d & E & F).
  exists d. rewrite E. simpl. rewrite <- app_assoc. split; [done|].
  eapply Forall_impl; [exact F|].
  intros [call b]. unfold loads_with. simpl. destruct call; try done.
  intros (? & ? & ? & ?). done.
Qed.

(** *** The ad-hoc path comes first *)

(** The calls of a run with [no_discover]. *)
Definition adhoc_event (o : options) (e : event) : Prop :=
  match ev_call e with
  | OpenRepo | InitialiseRepo | StdoutWrite _ | LatestId | LatestRunSummary =>
      True
  | Popen command => command = adhoc_command o
  | Load n _ _ _ => n = 1%nat
  | _ => False
  end.

(** With [no_discover] set, the other selections are not looked at: whatever
    [failing], [load_list], [isolated] and [analyze_isolation] are, the
    command reads no failing run and no list, builds no worker command, and
    only starts [python -m subunit.run] on the converted id, loading its one
    stream. *)
Theorem no_discover_bypasses_selection o fuel st :
  no_discover o ≠ [] →
  ∃ delta,
    trace (run_command o fuel st).1 = trace st ++ delta
    ∧ Forall (adhoc_event o) delta.
Proof.
  intros Hnd. revert st.
  change (emits (adhoc_event o) (run_command o fuel)).
  rewrite run_command_dispatch.
  apply emits_bind; [by apply open_repository_emits|]. intros _.
  apply emits_bind.
  { destruct (combine o); [|apply emits_ret].
    apply emits_bind; [by apply emits_perform|]. intros ?. apply emits_ret. }
  intros cid. unfold dispatch. destruct (no_discover o) as [|ch nd]; [done|].
  assert (emits (adhoc_event o) (run_tests_adhoc o cid)) as Hrun.
  { unfold run_tests_adhoc. apply emits_bind; [by apply emits_perform|].
    intros _. by apply emits_perform. }
  unfold run_adhoc. destruct (until_failure o); [|done].
  apply emits_until_failure_loop. unfold iteration_adhoc.
  apply emits_bind; [done|]. intros r. unfold recheck.
  apply emits_bind; [by apply emits_perform|]. intros ok. apply emits_ret.
Qed.

(** *** The exit code and the calls of the analysis *)

(** The analysis returns only 0 or 3, whatever its probes return, and it
    talks to the repository, the configuration and the execution primitive
    only: it calls neither the loader nor a worker command's [setUp],
    [run_tests] or [cleanUp] itself. *)
Theorem analysis_exit_code ids st :
  (∀ code, (analyze ids st).2 = Ok code → code = 0 ∨ code = 3)
  ∧ ∃ delta,
      trace (analyze ids st).1 = trace st ++ delta
      ∧ Forall analysis_event delta.
Proof.
  split; [|apply analyze_events].
  assert (returns (analyze ids) (λ code, code = 0 ∨ code = 3)) as Hret;
    [|intros code; apply Hret].
  unfold analyze. apply returns_bind with (Q1 := λ _, True); [done|].
  intros latest_run _. destruct ids as [ids|]; [|done].
  apply returns_bind with (Q1 := λ _, True); [done|]. intros sp _.
  destruct (decide (sp = ∅)); [intros st' code [= <-]; by left|].
  apply returns_bind with (Q1 := λ _, True); [done|]. intros tc _.
  intros st' code Hcode.
  destruct (report_returns tc st' code Hcode) as [[_ ->]|[_ ->]]; auto.
Qed.

(** *** The probes of the bisection *)

(** A probe of the search for [sf] among [cands]: a block of consecutive
    candidates, not empty, followed by [sf]. *)
Definition is_probe_of (sf : string) (cands : list string) (c : cmd) : Prop :=
  ∃ lo hi, 0 ≤ lo ∧ lo < hi ∧ hi ≤ len cands
           ∧ c = Cmd (Some (slice cands lo hi ++ [sf])) None.

Definition probe_event (sf : string) (cands : list string) (e : event) : Prop :=
  match ev_call e with
  | GetRunCommand c | Call_run_tests c => is_probe_of sf cands c
  | GetFailing => True
  | _ => False
  end.

Lemma bisect_loop_probes fuel sf (cands : list string) bottom top width tc :
  0 ≤ bottom → 0 ≤ width →
  (0 < width → top = bottom + width ∧ top ≤ len cands) →
  emits (probe_event sf cands)
    (bisect_loop fuel sf cands bottom top width tc).
Proof.
  revert bottom top width tc.
  induction fuel as [|fuel IH]; intros bottom top width tc Hb Hw Hinv; simpl.
  { apply emits_diverge. }
  destruct (decide (width = 0)) as [->|Hne]; [apply emits_ret|].
  destruct (Hinv ltac:(lia)) as [Htop Hlen].
  assert (0 < (width + 1) / 2) as Hcw by (apply Z.div_str_pos; lia).
  assert ((width + 1) / 2 ≤ width) as Hcw' by (apply Z.div_le_upper_bound; lia).
  assert (is_probe_of sf cands
            (Cmd (Some (slice cands bottom (bottom + (width + 1) / 2) ++ [sf]))
               None)) as Hprobe.
  { exists bottom, (bottom + (width + 1) / 2). split_and!; [lia..|done]. }
  apply emits_get_run_command; [done|].
  apply emits_bind; [by apply emits_perform|]. intros _.
  apply emits_bind; [by apply emits_perform|]. intros failing_run.
  destruct (bool_decide _); destruct (decide (width = 1)) as [->|Hne1].
  - destruct (cands !! Z.to_nat bottom); [|apply emits_raise].
    apply IH; lia.
  - apply IH; lia.
  - apply IH; lia.
  - apply IH; [lia|lia|]. intros _. lia.
Qed.

(** Every command the search builds and probes is a non-empty block of
    consecutive candidates followed by the failing test; the search makes
    no other call than building the command, running it and reading the
    failing run. *)
Theorem bisect_probes_candidate_blocks sf (cands : list string) tc st :
  ∃ delta,
    trace (bisect sf cands tc st).1 = trace st ++ delta
    ∧ Forall (probe_event sf cands) delta.
Proof.
  revert st. change (emits (probe_event sf cands) (bisect sf cands tc)).
  unfold bisect. apply emits_bind.
  - apply bisect_loop_probes; unfold len; lia.
  - intros tc'. destruct (tc' !! sf); apply emits_ret.
Qed.

(** *** The selection of the ids *)

(** What [run_command] does before it builds a worker command or starts
    the analysis, when [no_discover] is unset (lines 192-206 and 247-262):
    the opening of the repository, the id to combine with, the failing ids
    and the load list.  It returns [combine_id] and [ids]. *)
Definition prepare (o : options) : M (option string * option (list string)) :=
  open_repository o ;;
  combine_id <- (if combine o
                 then latest_id <- perform LatestId (h_latest_id H) ;;
                      ret (Some latest_id)
                 else ret None) ;;
  ids <- (if failing o || analyze_isolation o
          then ids <- _find_failing ;; ret (Some ids)
          else ret None) ;;
  ids <- (match load_list o with
          | Some path =>
              list_ids <- perform (ReadLoadList path)
                            (h_read_load_list H path) ;;
              ret (Some match ids with
                        | None => list_ids
                        | Some ids => filter (λ x, x ∈ ids) list_ids
                        end)
          | None => ret ids
          end) ;;
  ret (combine_id, ids).

Lemma bind_bind {A B C} (m : M A) (k : A → M B) (k' : B → M C)
    (g : A → M C) st :
  (∀ a st', bind (k a) k' st' = g a st') →
  bind (bind m k) k' st = bind m g st.
Proof.
  intros Hk. rewrite bind_assoc. unfold bind at 1 3.
  destruct (m st) as [st1 [a|e|]]; [apply Hk|done..].
Qed.

(** [run_command] without [no_discover] is [prepare] followed by one of
    the three modes. *)
Lemma run_command_prepare o fuel st :
  no_discover o = [] →
  run_command o fuel st
  = (p <- prepare o ;;
     if negb (analyze_isolation o) then
       c <- get_run_command p.2 (filters o) ;;
       if isolated o then run_isolated o p.1 fuel c
       else _run_tests c (failing o) (analyze_isolation o) (isolated o)
              (until_failure o) (subunit_out o) p.1 fuel
     else analyze p.2) st.
Proof.
  intros Hnd. unfold run_command, prepare. rewrite Hnd. symmetry.
  apply bind_bind. intros _ st1.
  apply bind_bind. intros combine_id st2.
  apply bind_bind. intros ids st3.
  apply bind_bind. intros ids' st4. reflexivity.
Qed.

(** The calls of [prepare]. *)
Definition selection_event (e : event) : Prop :=
  match ev_call e with
  | OpenRepo | InitialiseRepo | StdoutWrite _ | LatestId | GetFailing
  | ReadLoadList _ => True
  | _ => False
  end.

Lemma prepare_emits o : emits selection_event (prepare o).
Proof.
  unfold prepare. apply emits_bind; [by apply open_repository_emits|].
  intros _. apply emits_bind.
  { destruct (combine o); [|apply emits_ret].
    apply emits_bind; [by apply emits_perform|]. intros ?. apply emits_ret. }
  intros combine_id. apply emits_bind.
  { destruct (failing o || analyze_isolation o); [|apply emits_ret].
    apply emits_bind; [|intros ?; apply emits_ret].
    unfold _find_failing. apply emits_bind; [by apply emits_perform|].
    intros ?. apply emits_ret. }
  intros ids. apply emits_bind; [|intros ?; apply emits_ret].
  destruct (load_list o); [|apply emits_ret].
  apply emits_bind; [by apply emits_perform|]. intros ?. apply emits_ret.
Qed.

(** *** The claim about an analysis without failing ids *)

(** C4, amended: when the ids selected for the analysis are empty, whether
    no test is recorded as failing or none of the failing tests is in the
    load list, and with or without [combine], [run_command] reads the
    latest run and returns 0.  It raises nothing; before the latest run it
    has only opened or created the repository and read the latest id, the
    failing run and the load list: no worker command is built, no test
    process started and no search attempted. *)
Theorem analysis_without_failing_ids_returns_zero o fuel st st1 combine_id w
    (latest_run : run) :
  no_discover o = [] → analyze_isolation o = true →
  prepare o st = (st1, Ok (combine_id, Some [])) →
  h_get_latest_run H (world st1) = (w, Returned latest_run) →
  run_command o fuel st
  = (State w (trace st1 ++ [Event GetLatestRun true]), Ok 0)
  ∧ ∃ delta, trace st1 = trace st ++ delta ∧ Forall selection_event delta.
Proof.
  intros Hnd Han Hprep Hlatest. split.
  - rewrite run_command_prepare by done.
    erewrite bind_ok; [|exact Hprep]. rewrite Han. simpl.
    unfold analyze. erewrite bind_ok; [|by apply perform_returned].
    simpl. unfold bind, ret. simpl. by rewrite decide_True.
  - destruct (prepare_emits o st) as (delta & E & F). rewrite Hprep in E.
    by exists delta.
Qed.

(** *** The claim about the until-failure loop of [_run_tests] *)

(** A run without [no_discover], analysis and isolated mode is one call of
    [_run_tests] on the command built for the selected ids. *)
Lemma run_command_batch o fuel st st1 combine_id ids :
  no_discover o = [] → analyze_isolation o = false → isolated o = false →
  prepare o st = (st1, Ok (combine_id, ids)) →
  run_command o fuel st
  = _run_tests (Cmd ids (filters o)) (failing o) false false (until_failure o)
      (subunit_out o) combine_id fuel
      (State (world st1)
         (trace st1 ++ [Event (GetRunCommand (Cmd ids (filters o))) true])).
Proof.
  intros Hnd Han Hi Hprep. rewrite run_command_prepare by done.
  erewrite bind_ok; [|exact Hprep]. rewrite Han, Hi. simpl.
  unfold get_run_command. by erewrite bind_ok; [|by apply perform_returned].
Qed.

(** C9: with [until_failure], after [setUp] has returned, when the first
    [k] passes through the loop body compute 0 and the next one computes
    [r], not 0, [_run_tests] leaves the loop there, calls [cleanUp] and
    returns exactly [r]; the batch has been run [k + 1] times; allowed at
    most [k] passes, [_run_tests] has not returned.  A run of [run_command]
    with [until_failure], without [no_discover], analysis and isolated
    mode, is this call of [_run_tests] and returns what it returns. *)
Theorem until_failure_returns_first_failure c f a i s cid st w1 k r w' :
  let it := iteration_batch c f a i s cid in
  let st1 := State w1 (trace st ++ [Event (SetUp c) true]) in
  h_setUp H c (world st) = (w1, Returned ()) →
  (∀ j, (j < k)%nat → (it (after j it st1)).2 = Ok 0) →
  (it (after k it st1)).2 = Ok r → r ≠ 0 →
  h_cleanUp H c (world (after (S k) it st1)) = (w', Returned ()) →
  (∀ fuel, (k < fuel)%nat →
     _run_tests c f a i true s cid fuel st
     = (State w' (trace (after (S k) it st1) ++ [Event (CleanUp c) true]),
        Ok r))
  ∧ count_call (RunTests c) (trace (after (S k) it st1))
    = (count_call (RunTests c) (trace st) + S k)%nat
  ∧ (∀ fuel, (fuel ≤ k)%nat →
       (_run_tests c f a i true s cid fuel st).2 = Diverged)
  ∧ (∀ o fuel st0 st2 combine_id ids,
       no_discover o = [] → analyze_isolation o = false →
       isolated o = false → until_failure o = true →
       prepare o st0 = (st2, Ok (combine_id, ids)) →
       run_command o fuel st0
       = _run_tests (Cmd ids (filters o)) (failing o) false false true
           (subunit_out o) combine_id fuel
           (State (world st2)
              (trace st2
               ++ [Event (GetRunCommand (Cmd ids (filters o))) true]))).
Proof.
  intros it st1 Hs Hzero Hk Hr Hc. split_and!.
  - intros fuel Hfuel. rewrite _run_tests_unfold, Hs. fold st1.
    assert (run_body c f a i true s cid fuel st1 = (after (S k) it st1, Ok r))
      as Ebody by (by apply until_failure_loop_stops).
    by erewrite try_finally_returned;
      [|exact Ebody|done|by apply perform_returned].
  - unfold it. rewrite after_runs. unfold st1. simpl. rewrite count_call_app.
    unfold count_call at 2. rewrite filter_cons, decide_False by done.
    simpl. lia.
  - intros fuel Hfuel. rewrite _run_tests_unfold, Hs. fold st1.
    unfold try_finally, run_body.
    rewrite until_failure_loop_passes; [done|].
    intros j Hj. apply Hzero. lia.
  - intros o fuel st0 st2 combine_id ids Hnd Han Hi Hu Hprep.
    rewrite (run_command_batch o fuel st0 st2 combine_id ids) by done.
    by rewrite Hu.
Qed.

(** *** The claim about the isolated mode *)

Lemma count_call_cons c e t :
  count_call c (e :: t)
  = ((if decide (ev_call e = c) then 1 else 0) + count_call c t)%nat.
Proof.
  unfold count_call. rewrite filter_cons. by destruct (decide (ev_call e = c)).
Qed.

Lemma count_call_body c c' body :
  Forall (body_event c) body →
  count_call (SetUp c') body = 0%nat ∧ count_call (CleanUp c') body = 0%nat.
Proof.
  intros Hb. split; apply count_call_absent; (eapply Forall_impl; [exact Hb|]);
    intros e He; by destruct (body_event_not_bracket c e He c').
Qed.

(** The calls of [setUp] and [cleanUp] in one call of [_run_tests]:
    [setUp] once; unless the run goes on forever, [cleanUp] once when
    [setUp] returned and not at all when it raised, in which case its
    exception is the outcome; no call for another command. *)
Lemma _run_tests_counts c f a i u s cid fuel st c' :
  let r := _run_tests c f a i u s cid fuel st in
  count_call (SetUp c') (trace r.1)
  = (count_call (SetUp c') (trace st) + if decide (c' = c) then 1 else 0)%nat
  ∧ (r.2 ≠ Diverged →
     count_call (CleanUp c') (trace r.1)
     = (count_call (CleanUp c') (trace st)
        + if decide (c' = c)
          then (if has_returned (h_setUp H c (world st)).2 then 1 else 0)
          else 0)%nat)
  ∧ (∀ e, (h_setUp H c (world st)).2 = Raised e → r.2 = Raise e).
Proof.
  intros r. pose proof (_run_tests_bracket c f a i u s cid fuel st) as Hb.
  simpl in Hb. fold r in Hb.
  destruct (h_setUp H c (world st)).2 as [[]|e].
  - destruct Hb as (body & Hbody & Hshape).
    destruct (count_call_body c c' body Hbody) as [Hs0 Hc0].
    split_and!; [| |done].
    + destruct Hshape as [[_ ->]|[_ [b ->]]];
        rewrite ?count_call_app, ?count_call_cons, ?count_call_app,
          ?count_call_cons, ?Hs0; simpl;
        destruct (decide (c' = c)) as [->|Hne];
        rewrite ?decide_True, ?decide_False by congruence; simpl;
        unfold count_call; simpl; lia.
    + intros Hr. destruct Hshape as [[Hd _]|[_ [b ->]]]; [done|].
      rewrite ?count_call_app, ?count_call_cons, ?count_call_app,
        ?count_call_cons, ?Hc0; simpl.
      destruct (decide (c' = c)) as [->|Hne];
        rewrite ?decide_True, ?decide_False by congruence; simpl;
        unfold count_call; simpl; lia.
  - destruct Hb as [Hr ->]. split_and!.
    + rewrite count_call_app, count_call_cons. simpl.
      destruct (decide (c' = c)) as [->|Hne];
        rewrite ?decide_True, ?decide_False by congruence; simpl;
        unfold count_call; simpl; lia.
    + intros _. rewrite count_call_app, count_call_cons. simpl.
      destruct (decide (c' = c)); unfold count_call; simpl; lia.
    + by intros e' [= <-].
Qed.

Lemma single_run_unfold o cid fuel test_id st :
  single_run o cid fuel test_id st
  = _run_tests (Cmd (Some [test_id]) (filters o)) (failing o)
      (analyze_isolation o) (isolated o) (until_failure o) (subunit_out o)
      cid fuel
      (State (world st)
         (trace st
          ++ [Event (GetRunCommand (Cmd (Some [test_id]) (filters o))) true])).
Proof. reflexivity. Qed.

Lemma single_run_counts o cid fuel test_id st c' :
  let c := Cmd (Some [test_id]) (filters o) in
  let r := single_run o cid fuel test_id st in
  count_call (SetUp c') (trace r.1)
  = (count_call (SetUp c') (trace st) + if decide (c' = c) then 1 else 0)%nat
  ∧ (r.2 ≠ Diverged →
     count_call (CleanUp c') (trace r.1)
     = (count_call (CleanUp c') (trace st)
        + if decide (c' = c)
          then (if has_returned (h_setUp H c (world st)).2 then 1 else 0)
          else 0)%nat)
  ∧ (∀ e, (h_setUp H c (world st)).2 = Raised e → r.2 = Raise e).
Proof.
  intros c r. subst r. rewrite single_run_unfold. fold c.
  set (st0 := State (world st) (trace st ++ [Event (GetRunCommand c) true])).
  destruct (_run_tests_counts c (failing o) (analyze_isolation o) (isolated o)
              (until_failure o) (subunit_out o) cid fuel st0 c')
    as (Hs & Hc & Hr).
  assert (∀ x, (∀ c0, x ≠ GetRunCommand c0) →
               count_call x (trace st0) = count_call x (trace st)) as Hst0.
  { intros x Hx. unfold st0. simpl. rewrite count_call_app, count_call_cons.
    simpl. rewrite decide_False by (intros Heq; by apply (Hx c)).
    unfold count_call. simpl. lia. }
  rewrite !Hst0 in * by done. done.
Qed.

(** The per-test runs of [ids] whose command is [c']. *)
Definition runs_of (o : options) (c' : cmd) (ids : list string) : nat :=
  length (filter (λ test_id, Cmd (Some [test_id]) (filters o) = c') ids).

Lemma isolated_loop_counts o cid fuel ids result st code c' :
  (isolated_loop o cid fuel ids result st).2 = Ok code →
  count_call (SetUp c') (trace (isolated_loop o cid fuel ids result st).1)
  = (count_call (SetUp c') (trace st) + runs_of o c' ids)%nat
  ∧ count_call (CleanUp c') (trace (isolated_loop o cid fuel ids result st).1)
    = (count_call (CleanUp c') (trace st) + runs_of o c' ids)%nat.
Proof.
  revert result st. induction ids as [|id ids IH]; intros result st Hr.
  - unfold runs_of. simpl. lia.
  - rewrite isolated_loop_cons in *. unfold bind in *.
    destruct (single_run_counts o cid fuel id st c') as (Hs & Hc & Hraise).
    destruct (single_run o cid fuel id st) as [st1 [rr|e|]] eqn:Es;
      [|done..].
    simpl in Hs, Hc, Hraise.
    assert (has_returned
              (h_setUp H (Cmd (Some [id]) (filters o)) (world st)).2 = true)
      as Hret.
    { destruct (h_setUp H (Cmd (Some [id]) (filters o)) (world st)).2
        as [[]|e]; [done|]. by specialize (Hraise e eq_refl). }
    rewrite Hret in Hc. specialize (Hc ltac:(done)).
    destruct (IH _ _ Hr) as [IHs IHc]. rewrite IHs, IHc, Hs, Hc.
    unfold runs_of. rewrite filter_cons.
    destruct (decide (c' = Cmd (Some [id]) (filters o))) as [->|Hne].
    + rewrite decide_True by done. simpl. lia.
    + rewrite decide_False by congruence. lia.
Qed.

Lemma discover_returned c st st1 ids :
  discover c st = (st1, Ok ids) →
  trace st1 = trace st ++ [Event (SetUp c) true; Event (ListTests c) true;
                           Event (CleanUp c) true].
Proof.
  rewrite discover_unfold.
  destruct (h_setUp H c (world st)) as [w [[]|e]]; [|done].
  destruct (h_list_tests H c w) as [w1 [l|e1]];
    destruct (h_cleanUp H c w1) as [w2 [[]|e2]]; try done.
  by intros [= <- _].
Qed.

(** C7, amended.  When the isolated mode returns [code]: one discovery
    pass, [setUp], [list_tests] and [cleanUp] on the command of the whole
    selection, listed the ids; every id was run on its own and returned an
    exit code; [code] is the greatest of these codes, or 0 when none
    exceeds it; and after the discovery each command has had as many
    [setUp]s and as many [cleanUp]s as there are per-test runs on it.

    Every per-test run, whatever its outcome: [setUp] of its command is
    called exactly once; unless the run goes on forever, [cleanUp] is
    called exactly once when [setUp] returned, whether the run then
    returned 0, returned another code or raised, and not at all when
    [setUp] raised, in which case the run raises the exception of [setUp].

    The whole mode: at most one [list_tests] call; unless it goes on
    forever, every returned [setUp] is matched by one [cleanUp]; and
    without [until_failure] it does not go on forever and returns a code
    when every call it made returned. *)
Theorem isolated_mode_maximum_and_cleanup o cid fuel c st :
  let r := (run_isolated o cid fuel c st).2 in
  let t' := trace (run_isolated o cid fuel c st).1 in
  (∀ code, r = Ok code →
     ∃ ids codes st1,
       discover c st = (st1, Ok ids)
       ∧ trace st1 = trace st ++ [Event (SetUp c) true;
                                  Event (ListTests c) true;
                                  Event (CleanUp c) true]
       ∧ per_test_codes o cid fuel ids st1 = Some codes
       ∧ length codes = length ids
       ∧ 0 ≤ code
       ∧ (∀ x, x ∈ codes → x ≤ code)
       ∧ (code = 0 ∨ code ∈ codes)
       ∧ ∀ c',
           count_call (SetUp c') t'
           = (count_call (SetUp c') (trace st1) + runs_of o c' ids)%nat
           ∧ count_call (CleanUp c') t'
             = (count_call (CleanUp c') (trace st1) + runs_of o c' ids)%nat)
  ∧ (∀ test_id st',
       let c1 := Cmd (Some [test_id]) (filters o) in
       let r1 := single_run o cid fuel test_id st' in
       count_call (SetUp c1) (trace r1.1)
       = S (count_call (SetUp c1) (trace st'))
       ∧ (r1.2 ≠ Diverged →
          count_call (CleanUp c1) (trace r1.1)
          = (count_call (CleanUp c1) (trace st')
             + if has_returned (h_setUp H c1 (world st')).2 then 1 else 0)%nat)
       ∧ (∀ e, (h_setUp H c1 (world st')).2 = Raised e → r1.2 = Raise e))
  ∧ ∃ delta,
      t' = trace st ++ delta
      ∧ (length (filter (λ e, is_list_tests e = true) delta) ≤ 1)%nat
      ∧ (r ≠ Diverged → ∀ c', open_runs c' delta = 0)
      ∧ (until_failure o = false →
         r ≠ Diverged
         ∧ (Forall (λ e, ev_returned e = true) delta → ∃ code, r = Ok code)).
Proof.
  intros r t'. subst r t'. split_and!.
  - unfold run_isolated. intros code Hr. unfold bind in Hr |- *.
    destruct (discover c st) as [st1 [ids|e|]] eqn:Ed; [|done..].
    pose proof (isolated_loop_counts o cid fuel ids 0 st1 code) as Hcounts.
    specialize (λ c', Hcounts c' Hr).
    apply isolated_loop_codes in Hr as (codes & Hcodes & Hlen & ->).
    exists ids, codes, st1.
    destruct (foldl_max_bounds codes 0) as (H1 & H2 & H3).
    split_and!; [done|by eapply discover_returned|done..].
  - intros test_id st' c1 r1.
    destruct (single_run_counts o cid fuel test_id st' c1) as (Hs & Hc & Hr).
    fold c1 r1 in Hs, Hc, Hr. rewrite decide_True in Hs, Hc by done.
    split_and!; [rewrite Hs; lia|done|done].
  - assert (∃ delta,
              trace (run_isolated o cid fuel c st).1 = trace st ++ delta
              ∧ (length (filter (λ e, is_list_tests e = true) delta) ≤ 1)%nat
              ∧ ((run_isolated o cid fuel c st).2 ≠ Diverged →
                 ∀ c', open_runs c' delta = 0)) as (delta & E & L & B).
    { unfold run_isolated. pose proof (discover_unfold c st) as Eu.
      unfold bind. destruct (discover c st) as [st1 rd] eqn:Ed.
      assert (∃ d1, trace st1 = trace st ++ d1
                    ∧ (length (filter (λ e, is_list_tests e = true) d1) ≤ 1)%nat
                    ∧ (rd ≠ Diverged → ∀ c', open_runs c' d1 = 0))
        as (d1 & E1 & L1 & B1).
      { destruct (discover_balanced c st) as (d & E & B). rewrite Ed in E, B.
        exists d. split_and!; [done| |done].
        destruct (h_setUp H c (world st)) as [w [[]|e]].
        - destruct (h_list_tests H c w) as [w1 o1].
          destruct (h_cleanUp H c w1) as [w2 o2]. injection Eu as -> _.
          simpl in E. apply app_inv_head in E as <-. simpl. done.
        - injection Eu as -> _. simpl in E. apply app_inv_head in E as <-.
          simpl. lia. }
      destruct rd as [ids|e|]; simpl.
      + destruct (isolated_loop_no_discovery o cid fuel ids 0 st1)
          as (d2 & E2 & F2).
        destruct (isolated_loop_balanced o cid fuel ids 0 st1)
          as (d2' & E2' & B2).
        rewrite E2 in E2'. apply app_inv_head in E2' as <-.
        exists (d1 ++ d2). rewrite E2, E1, app_assoc. split_and!; [done| |].
        * rewrite filter_app, length_app.
          replace (filter (λ e, is_list_tests e = true) d2) with (@nil event);
            [simpl; lia|].
          clear -F2. induction F2 as [|e d He _ IH]; [done|].
          rewrite filter_cons, decide_False by congruence. done.
        * intros Hr c'. rewrite open_runs_app, B1, B2; done.
      + exists d1. split_and!; [done..|]. intros _. by apply B1.
      + exists d1. split_and!; [done..|]. by intros ?. }
    exists delta. split_and!; [done..|]. intros Hu.
    destruct (run_isolated_spec o cid fuel c Hu st) as (d & E' & _ & D & R & _).
    rewrite E in E'. apply app_inv_head in E' as <-. by split.
Qed.

End World.

(** ** A simulated repository and test suite *)

(** The world the closed statements below run in: a repository with its
    latest run and failing ids, tests that fail when run together with a
    culprit, and the scripted answers of discovery, loader and summary. *)
Record sim : Type := Sim {
  latest : run;
  recorded_failing : list string;
  culprits : list (string * string);
  listed : list string;
  procs : nat;
  loads : list Z;
  summaries : list bool
}.

(** The tests among [ids] that fail when [ids] run in one process: those
    with a culprit among them. *)
Definition victims (w : sim) (ids : list string) : list string :=
  filter (λ v, existsb (λ p, bool_decide (p.2 = v) && bool_decide (p.1 ∈ ids))
                 (culprits w) = true) ids.

(** A partial run of [ids]: the repository forgets the old verdict on these
    ids and records the new failures; the exit code tells whether any test
    failed. *)
Definition run_ids (ids : list string) (w : sim) : sim * outcome Z :=
  let failed := victims w ids in
  (Sim (latest w)
     (filter (λ x, x ∉ ids) (recorded_failing w) ++ failed)
     (culprits w) (listed w) (procs w) (loads w) (summaries w),
   Returned (if decide (failed = []) then 0 else 1)).

Definition next_load (w : sim) : sim * outcome Z :=
  (Sim (latest w) (recorded_failing w) (culprits w) (listed w) (procs w)
     (tail (loads w)) (summaries w),
   Returned (hd 0 (loads w))).

Definition next_summary (w : sim) : sim * outcome bool :=
  (Sim (latest w) (recorded_failing w) (culprits w) (listed w) (procs w)
     (loads w) (tail (summaries w)),
   Returned (hd true (summaries w))).

(** Binding the arguments of a call: when fewer positional arguments are
    given than the function has parameters without default, Python raises
    [TypeError] and the body does not run. *)
Definition bind_arguments {A} (parameters given : nat)
    (body : sim → sim * outcome A) : sim → sim * outcome A :=
  if decide (parameters ≤ given)%nat then body
  else λ w, (w, Raised TypeError).

(** [def _run_tests(cmd, failing, analyze_isolation, isolated,
    until_failure, subunit_out=False, ...)] *)
Definition _run_tests_parameters : nat := 5.

(** [def _prior_tests(self, run, failing_id)] *)
Definition _prior_tests_parameters : nat := 3.

Definition prior_tests_of (r : run) (failing_id : string) (w : sim)
    : sim * outcome (list string) :=
  (w, match (_prior_tests new_analyzer r failing_id).2 with
      | Ok l => Returned l
      | Raise e => Raised e
      | Diverged => Raised (External "diverged")
      end).

(** The collaborators of the simulated world.  [given_run_tests] and
    [given_prior_tests] are the numbers of positional arguments the analysis
    passes to [_run_tests] and [_prior_tests]. *)
Definition simulated (given_run_tests given_prior_tests : nat)
    : @collaborators sim :=
  {| h_open_repo := λ w, (w, Returned ());
     h_initialise_repo := λ w, (w, Returned ());
     h_latest_id := λ w, (w, Returned "0");
     h_get_failing := λ w,
       (w, Returned ((λ id, TestDict id "fail" []) <$> recorded_failing w));
     h_get_latest_run := λ w, (w, Returned (latest w));
     h_get_test_ids := λ w, (w, Returned (td_id <$> latest w));
     h_latest_run_successful := next_summary;
     h_read_load_list := λ _ w, (w, Returned []);
     h_setUp := λ _ w, (w, Returned ());
     h_list_tests := λ _ w, (w, Returned (listed w));
     h_run_tests := λ _ w, (w, Returned (procs w));
     h_cleanUp := λ _ w, (w, Returned ());
     h_popen := λ _ w, (w, Returned ());
     h_load := λ _ _ _ _, next_load;
     h_call_run_tests := λ c,
       bind_arguments _run_tests_parameters given_run_tests
         (run_ids (default [] (cmd_ids c)));
     h_call_prior_tests := λ r id,
       bind_arguments _prior_tests_parameters given_prior_tests
         (prior_tests_of r id) |}.

(** The calls as [run_command] writes them: [_run_tests(cmd)] and
    [_prior_tests(latest_run, spurious_failure)]. *)
Definition as_written : @collaborators sim := simulated 1 2.

(** The calls with every parameter supplied.  This is not what the code
    does: it only shows, beside [as_written], what the analysis would do
    were its two calls complete. *)
Definition as_repaired : @collaborators sim := simulated 5 3.

Definition start (w : sim) : @state sim := State w [].

Definition default_options : options :=
  {| config_found := true; test_path := None; failing := false;
     load_list := None; partial := false; subunit_out := false;
     until_failure := false; analyze_isolation := false; isolated := false;
     no_discover := []; combine := false; filters := None |}.

Definition analysis_options : options :=
  {| config_found := true; test_path := None; failing := false;
     load_list := None; partial := false; subunit_out := false;
     until_failure := false; analyze_isolation := true; isolated := false;
     no_discover := []; combine := false; filters := None |}.

Definition empty_world : sim := Sim [] [] [] [] 1 [] [].

(** *** The until-failure loop on a scripted loader *)

(** Two passing iterations, then a failing one. *)
Definition pass_pass_fail : sim := Sim [] [] [] [] 2 [0; 0; 1] [].

Definition batch_cmd : cmd := Cmd None None.

(** The same script through [_run_tests]: three batches, one [cleanUp], and
    the code of the third batch. *)
Example _run_tests_pass_pass_fail :
  let r := _run_tests as_written batch_cmd false false false true false None
             10 (start pass_pass_fail) in
  r.2 = Ok 1
  ∧ ev_call <$> trace r.1
    = [SetUp batch_cmd;
       RunTests batch_cmd; Load 2 false false None;
       RunTests batch_cmd; Load 2 false false None;
       RunTests batch_cmd; Load 2 false false None;
       CleanUp batch_cmd].
Proof. by vm_compute. Qed.

(** *** The re-check of the ad-hoc path *)

(** The loader answers 0, 0, 2 and the latest run of the repository holds a
    failure. *)
Definition loader_passes_run_fails : sim := Sim [] [] [] [] 1 [0; 0; 2] [false].

Definition adhoc_options : options :=
  {| config_found := true; test_path := None; failing := false;
     load_list := None; partial := false; subunit_out := false;
     until_failure := true; analyze_isolation := false; isolated := false;
     no_discover := String.list_ascii_of_string "pkg/mod/test_file.py";
     combine := false; filters := None |}.

Definition batch_options : options :=
  {| config_found := true; test_path := None; failing := false;
     load_list := None; partial := false; subunit_out := false;
     until_failure := true; analyze_isolation := false; isolated := false;
     no_discover := []; combine := false; filters := None |}.

(** C6 fails on the ad-hoc path: without subunit output requested, the
    first iteration of the [no_discover] loop still reads the latest run
    back and replaces the loader's 0 by 1, so the command returns 1 after
    one iteration; on the same world the loop of [_run_tests] uses the
    loader's codes unchanged and returns 2 after three. *)
Theorem adhoc_recheck_ignores_subunit_out :
  subunit_out adhoc_options = false
  ∧ (let r := run_command as_repaired adhoc_options 10
                (start loader_passes_run_fails) in
     r.2 = Ok 1
     ∧ ev_call <$> trace r.1
       = [OpenRepo; Popen "python -m subunit.run pkg.mod.test_file";
          Load 1 false false None; LatestRunSummary])
  ∧ (let r := run_command as_repaired batch_options 10
                (start loader_passes_run_fails) in
     r.2 = Ok 2
     ∧ ev_call <$> trace r.1
       = [OpenRepo; GetRunCommand batch_cmd; SetUp batch_cmd;
          RunTests batch_cmd; Load 1 false false None;
          RunTests batch_cmd; Load 1 false false None;
          RunTests batch_cmd; Load 1 false false None;
          CleanUp batch_cmd]).
Proof. by vm_compute. Qed.

(** *** The isolated mode on three tests *)

(** Discovery lists A, B and C; their runs end with the codes 0, 2, 0. *)
Definition three_tests : sim := Sim [] [] [] ["A"; "B"; "C"] 1 [0; 2; 0] [].

Definition isolated_options : options :=
  {| config_found := true; test_path := None; failing := false;
     load_list := None; partial := false; subunit_out := false;
     until_failure := false; analyze_isolation := false; isolated := true;
     no_discover := []; combine := false; filters := None |}.

Example isolated_three_tests_cleanups :
  let t := trace (run_isolated as_written isolated_options None 0 batch_cmd
                    (start three_tests)).1 in
  count_call (ListTests batch_cmd) t = 1%nat
  ∧ count_call (CleanUp batch_cmd) t = 1%nat
  ∧ count_call (CleanUp (Cmd (Some ["A"]) None)) t = 1%nat
  ∧ count_call (CleanUp (Cmd (Some ["B"]) None)) t = 1%nat
  ∧ count_call (CleanUp (Cmd (Some ["C"]) None)) t = 1%nat.
Proof. by vm_compute. Qed.

(** *** The bisection on three candidates *)

(** The latest run put c1, c2, c3 and then t on one worker; t failed there
    and fails whenever c1 runs before it. *)
Definition one_culprit : sim :=
  Sim [ TestDict "c1" "success" ["worker-0"];
        TestDict "c2" "success" ["worker-0"];
        TestDict "c3" "success" ["worker-0"];
        TestDict "t" "fail" ["worker-0"] ]
      ["t"] [("c1", "t")] [] 1 [] [].

(** With the calls given all their parameters the search takes three
    probes on these candidates, [c1 c2 t], [c1 t] and [c1 t] again. *)
Example one_culprit_probes :
  probes (trace (bisect as_repaired "t" ["c1"; "c2"; "c3"] ∅
                   (start one_culprit)).1) = 3
  ∧ Z.log2_up (len ["c1"; "c2"; "c3"] + 1) = 2.
Proof. by vm_compute. Qed.

(** C1 fails on the code as written.  The probe of the search is the call
    [_run_tests(cmd)], which lacks four of the five positional arguments of
    [_run_tests]: for every non-empty list of candidates the search builds
    its first command, the call raises [TypeError], and the search ends
    there with no outcome assigned to the failure.  In [run_command] the
    same call of stage one raises before any search begins: on a repository
    where [t] failed after [c1], [c2] and [c3] the analysis ends with
    [TypeError] after five calls, none of them a probe of the search. *)
Theorem bisect_probe_raises_TypeError :
  (∀ (w : sim) (t : list event) (sf : string) (cands : list string)
     (tc : gmap string string),
     cands ≠ [] →
     let c := Cmd (Some (slice cands 0 ((len cands + 1) / 2) ++ [sf])) None in
     bisect as_written sf cands tc (State w t)
     = (State w (t ++ [Event (GetRunCommand c) true;
                       Event (Call_run_tests c) false]),
        Raise TypeError))
  ∧ (let r := run_command as_written analysis_options 0 (start one_culprit) in
     r.2 = Raise TypeError
     ∧ trace r.1
       = [Event OpenRepo true; Event GetFailing true; Event GetLatestRun true;
          Event (GetRunCommand (Cmd (Some ["t"]) None)) true;
          Event (Call_run_tests (Cmd (Some ["t"]) None)) false]).
Proof.
  split; [|by vm_compute].
  intros w t sf cands tc Hne c. unfold bisect.
  assert (len cands - 0 ≠ 0) as Hw.
  { unfold len. destruct cands; [done|simpl; lia]. }
  simpl bisect_loop. rewrite decide_False by done.
  rewrite Z.sub_0_r, Z.add_0_l. fold c.
  unfold bind, get_run_command, perform. simpl. by rewrite <- app_assoc.
Qed.

Lemma bisect_probe_raises_TypeError_witness :
  bisect as_written "t" ["c1"; "c2"; "c3"] ∅ (start one_culprit)
  = (State one_culprit
       [Event (GetRunCommand (Cmd (Some ["c1"; "c2"; "t"]) None)) true;
        Event (Call_run_tests (Cmd (Some ["c1"; "c2"; "t"]) None)) false],
     Raise TypeError).
Proof.
  apply (proj1 bisect_probe_raises_TypeError one_culprit [] "t"
           ["c1"; "c2"; "c3"] ∅).
  discriminate.
Defined.

(** The bound of the loop, on the calls as they are written. *)
Lemma bisect_terminates_within_bound_witness :
  ∃ delta,
    trace (bisect as_written "t" ["c1"; "c2"; "c3"] ∅ (start one_culprit)).1
    = trace (start one_culprit) ++ delta
    ∧ (bisect as_written "t" ["c1"; "c2"; "c3"] ∅ (start one_culprit)).2
      ≠ Diverged
    ∧ probes delta ≤ Z.log2_up (len ["c1"; "c2"; "c3"]) + 1
    ∧ (Forall (λ e, ev_returned e = true) delta →
       ∃ m, (bisect as_written "t" ["c1"; "c2"; "c3"] ∅
               (start one_culprit)).2 = Ok m)
    ∧ (∀ m, (bisect as_written "t" ["c1"; "c2"; "c3"] ∅
               (start one_culprit)).2 = Ok m →
       ∃ v, m = <[ "t" := v ]> ∅
            ∧ (v ∈ ["c1"; "c2"; "c3"] ∨ v = unknown_cause)).
Proof.
  apply (bisect_terminates_within_bound as_written "t" ["c1"; "c2"; "c3"] ∅
           (start one_culprit)).
  - discriminate.
  - reflexivity.
Defined.

(** With the calls given all their parameters the search finds [c1]. *)
Example one_culprit_found :
  (bisect as_repaired "t" ["c1"; "c2"; "c3"] ∅ (start one_culprit)).2
  = Ok {[ "t" := "c1" ]}.
Proof. by vm_compute. Qed.

(** *** The analysis on the simulated repository *)

(** A repository whose failing run is empty. *)
Definition nothing_failing : sim :=
  Sim [ TestDict "a" "success" ["worker-0"] ] [] [] [] 1 [] [].

(** The reading of the claim for an analysis: it ends with an error. *)
Definition fails_with_error (H : @collaborators sim) (o : options)
    (st : @state sim) : Prop :=
  ∃ e, (run_command H o 0 st).2 = Raise e.

(** C4, as stated, fails: with no failing id the analysis returns 0 and
    raises nothing. *)
Lemma analysis_without_failing_ids_counterexample :
  (run_command as_written analysis_options 0 (start nothing_failing)).2 = Ok 0
  ∧ ¬ fails_with_error as_written analysis_options (start nothing_failing).
Proof.
  split; [by vm_compute|]. intros [e He]. vm_compute in He. discriminate.
Qed.

(** Two tests failed in the latest run, each passes alone; t1 fails after
    p, nothing makes t2 fail. *)
Definition two_spurious : sim :=
  Sim [ TestDict "p" "success" ["worker-0"];
        TestDict "t1" "fail" ["worker-0"];
        TestDict "q" "success" ["worker-1"];
        TestDict "t2" "fail" ["worker-1"] ]
      ["t1"; "t2"] [("p", "t1")] [] 1 [] [].

(** C8 fails on the code as written: with one failing id in the
    repository the analysis builds the command for it and calls
    [_run_tests(cmd)], which lacks four of the five positional arguments
    of [_run_tests] and raises [TypeError]; no conflict map is reported and
    no exit code 3 or 0 is returned.  With every parameter supplied the
    same analysis reports one entry per spurious failure, a cause or the
    unknown marker, and returns 3. *)
Theorem analysis_calls_raise_TypeError :
  (let r := run_command as_written analysis_options 0 (start two_spurious) in
   r.2 = Raise TypeError
   ∧ trace r.1
     = [Event OpenRepo true; Event GetFailing true; Event GetLatestRun true;
        Event (GetRunCommand (Cmd (Some ["t1"]) None)) true;
        Event (Call_run_tests (Cmd (Some ["t1"]) None)) false])
  ∧ (let r := run_command as_repaired analysis_options 0 (start two_spurious) in
     r.2 = Ok 3
     ∧ last (ev_call <$> trace r.1)
       = Some (OutputTable [("failing test", "caused by test");
                            ("t1", "p"); ("t2", unknown_cause)])).
Proof. by vm_compute. Qed.

(** *** Collaborators that fail *)

(** The simulated collaborators, with the answer of the opening, the
    exceptions of [setUp], [run_tests] and [cleanUp] per command, and the
    content of the load list given; the calls of the analysis are the ones
    [run_command] writes. *)
Definition faulty (opening : outcome unit)
    (set_up start_processes clean_up : cmd → option exn)
    (listed_ids : list string) : @collaborators sim :=
  {| h_open_repo := λ w, (w, opening);
     h_initialise_repo := λ w, (w, Returned ());
     h_latest_id := λ w, (w, Returned "0");
     h_get_failing := λ w,
       (w, Returned ((λ id, TestDict id "fail" []) <$> recorded_failing w));
     h_get_latest_run := λ w, (w, Returned (latest w));
     h_get_test_ids := λ w, (w, Returned (td_id <$> latest w));
     h_latest_run_successful := next_summary;
     h_read_load_list := λ _ w, (w, Returned listed_ids);
     h_setUp := λ c w,
       (w, match set_up c with Some e => Raised e | None => Returned () end);
     h_list_tests := λ _ w, (w, Returned (listed w));
     h_run_tests := λ c w,
       (w, match start_processes c with
           | Some e => Raised e
           | None => Returned (procs w)
           end);
     h_cleanUp := λ c w,
       (w, match clean_up c with Some e => Raised e | None => Returned () end);
     h_popen := λ _ w, (w, Returned ());
     h_load := λ _ _ _ _, next_load;
     h_call_run_tests := h_call_run_tests as_written;
     h_call_prior_tests := h_call_prior_tests as_written |}.

Definition no_fault : cmd → option exn := λ _, None.

Definition always (e : exn) : cmd → option exn := λ _, Some e.

(** There is no repository. *)
Definition without_repository : @collaborators sim :=
  faulty (Raised (External "RepositoryNotFound")) no_fault no_fault no_fault [].

(** The repository cannot be read. *)
Definition unreadable_repository : @collaborators sim :=
  faulty (Raised (External "PermissionError")) no_fault no_fault no_fault [].

Definition no_config_options : options :=
  {| config_found := false; test_path := None; failing := false;
     load_list := None; partial := false; subunit_out := false;
     until_failure := false; analyze_isolation := false; isolated := false;
     no_discover := []; combine := false; filters := None |}.

Lemma missing_repository_without_config_exits_witness :
  run_command without_repository no_config_options 0 (start empty_world)
  = (State empty_world [Event OpenRepo false;
                        Event (StdoutWrite no_config_message) true],
     Raise (SystemExit 1)).
Proof.
  apply (missing_repository_without_config_exits without_repository
           no_config_options 0 (start empty_world) empty_world);
    reflexivity.
Defined.

Lemma missing_repository_is_initialised_witness :
  open_repository without_repository default_options (start empty_world)
  = (State empty_world [Event OpenRepo false; Event InitialiseRepo true], Ok ())
  ∧ run_command unreadable_repository default_options 0 (start empty_world)
    = (State empty_world [Event OpenRepo false],
       Raise (External "PermissionError")).
Proof.
  split.
  - exact (proj1 (missing_repository_is_initialised without_repository
                    default_options 0 (start empty_world) empty_world
                    (External "RepositoryNotFound") eq_refl)
             eq_refl (or_introl eq_refl)).
  - apply (proj2 (missing_repository_is_initialised unreadable_repository
                    default_options 0 (start empty_world) empty_world
                    (External "PermissionError") eq_refl)).
    discriminate.
Defined.

(** The worker command starts no process. *)
Definition no_processes : sim := Sim [] [] [] [] 0 [] [].

Lemma no_matching_test_returns_one_witness :
  _run_tests as_written batch_cmd false false false true false None 1
    (start no_processes)
  = (State no_processes
       [Event (SetUp batch_cmd) true; Event (RunTests batch_cmd) true;
        Event (StdoutWrite no_match_message) true;
        Event (CleanUp batch_cmd) true],
     Ok 1).
Proof.
  apply (no_matching_test_returns_one as_written batch_cmd false false false
           true false None 1 (start no_processes) no_processes no_processes
           no_processes); [reflexivity..|].
  right. split; [reflexivity|discriminate].
Defined.

Lemma setUp_failure_skips_cleanUp_witness :
  _run_tests (faulty (Returned ()) (always (External "fixture")) no_fault
                no_fault [])
    batch_cmd false false false false false None 0 (start pass_pass_fail)
  = (State pass_pass_fail [Event (SetUp batch_cmd) false],
     Raise (External "fixture")).
Proof.
  apply (setUp_failure_skips_cleanUp
           (faulty (Returned ()) (always (External "fixture")) no_fault
              no_fault [])
           batch_cmd false false false false false None 0
           (start pass_pass_fail) pass_pass_fail (External "fixture")).
  reflexivity.
Defined.

Lemma cleanUp_runs_after_error_witness :
  _run_tests (faulty (Returned ()) no_fault (always (External "spawn"))
                no_fault [])
    batch_cmd false false false false false None 0 (start pass_pass_fail)
  = (State pass_pass_fail
       [Event (SetUp batch_cmd) true; Event (RunTests batch_cmd) false;
        Event (CleanUp batch_cmd) true],
     Raise (External "spawn"))
  ∧ _run_tests (faulty (Returned ()) no_fault (always (External "spawn"))
                  (always (External "teardown")) [])
      batch_cmd false false false true false None 1 (start pass_pass_fail)
    = (State pass_pass_fail
         [Event (SetUp batch_cmd) true; Event (RunTests batch_cmd) false;
          Event (CleanUp batch_cmd) false],
       Raise (External "teardown")).
Proof.
  split.
  - apply (cleanUp_runs_after_error
             (faulty (Returned ()) no_fault (always (External "spawn"))
                no_fault [])
             batch_cmd false false false false false None 0
             (start pass_pass_fail) pass_pass_fail pass_pass_fail
             pass_pass_fail (External "spawn") (Returned ()));
      [reflexivity..|by left].
  - apply (cleanUp_runs_after_error
             (faulty (Returned ()) no_fault (always (External "spawn"))
                (always (External "teardown")) [])
             batch_cmd false false false true false None 1
             (start pass_pass_fail) pass_pass_fail pass_pass_fail
             pass_pass_fail (External "spawn")
             (Raised (External "teardown")));
      [reflexivity..|right; discriminate].
Defined.

Lemma until_failure_never_returns_zero_witness :
  (run_command as_written batch_options 10 (start pass_pass_fail)).2 ≠ Ok 0.
Proof.
  apply (until_failure_never_returns_zero as_written batch_options 10
           (start pass_pass_fail)); reflexivity.
Defined.

Lemma adhoc_until_failure_returns_first_failure_witness :
  let it := iteration_adhoc as_written adhoc_options None in
  run_adhoc as_written adhoc_options None 10 (start pass_pass_fail)
  = (after 3 it (start pass_pass_fail), Ok 1)
  ∧ count_call (Popen (adhoc_command adhoc_options))
      (trace (after 3 it (start pass_pass_fail)))
    = (count_call (Popen (adhoc_command adhoc_options))
         (trace (start pass_pass_fail)) + 3)%nat.
Proof.
  apply (adhoc_until_failure_returns_first_failure as_written adhoc_options
           None (start pass_pass_fail) 2 1 10).
  - reflexivity.
  - intros j Hj. destruct j as [|[|j]]; [reflexivity|reflexivity|lia].
  - reflexivity.
  - discriminate.
  - lia.
Defined.

(** The repository records a and b as failing; the load list holds b, x
    and a. *)
Definition a_b_failing : sim := Sim [] ["a"; "b"] [] [] 1 [1] [].

Definition listing_b_x_a : @collaborators sim :=
  faulty (Returned ()) no_fault no_fault no_fault ["b"; "x"; "a"].

Definition failing_listed_options : options :=
  {| config_found := true; test_path := None; failing := true;
     load_list := Some "list.txt"; partial := false; subunit_out := false;
     until_failure := false; analyze_isolation := false; isolated := false;
     no_discover := []; combine := false; filters := None |}.

Lemma failing_and_load_list_intersect_witness :
  ∃ ids,
    (∀ x, x ∈ ids ↔
          x ∈ ["b"; "x"; "a"]
          ∧ ∃ td, td ∈ [TestDict "a" "fail" []; TestDict "b" "fail" []]
                  ∧ td_status td = "fail" ∧ td_id td = x)
    ∧ run_command listing_b_x_a failing_listed_options 0 (start a_b_failing)
      = _run_tests listing_b_x_a (Cmd (Some ids) None) true false false false
          false None 0
          (State a_b_failing
             [Event OpenRepo true; Event GetFailing true;
              Event (ReadLoadList "list.txt") true;
              Event (GetRunCommand (Cmd (Some ids) None)) true]).
Proof.
  apply (failing_and_load_list_intersect listing_b_x_a failing_listed_options
           0 (start a_b_failing) a_b_failing a_b_failing a_b_failing
           [TestDict "a" "fail" []; TestDict "b" "fail" []]
           ["b"; "x"; "a"] "list.txt"); reflexivity.
Defined.

(** Starting the processes of the command for B raises. *)
Definition b_does_not_start : @collaborators sim :=
  faulty (Returned ()) no_fault
    (λ c, if decide (cmd_ids c = Some ["B"]) then Some (External "spawn")
          else None)
    no_fault [].

Lemma isolated_run_error_ends_the_loop_witness :
  ∃ st2,
    isolated_loop b_does_not_start isolated_options None 0 ["A"; "B"; "C"] 0
      (start three_tests)
    = (st2, Raise (External "spawn"))
    ∧ count_call (RunTests (Cmd (Some ["C"]) None)) (trace st2) = 0%nat.
Proof.
  eexists. split.
  - eapply (isolated_run_error_ends_the_loop b_does_not_start isolated_options
              None 0 ["A"] "B" ["C"] 0 (start three_tests));
      reflexivity.
  - reflexivity.
Defined.

Lemma loader_call_arguments_witness :
  ∃ delta,
    trace (run_command as_written adhoc_options 10
             (start loader_passes_run_fails)).1
    = trace (start loader_passes_run_fails) ++ delta
    ∧ Forall (loads_with (λ n p s r,
                n ≠ 0%nat ∧ s = false ∧ (false = false → r = None)
                ∧ p = false)) delta.
Proof.
  apply (loader_call_arguments as_written adhoc_options 10
           (start loader_passes_run_fails)).
Defined.

Definition combine_options : options :=
  {| config_found := true; test_path := None; failing := false;
     load_list := None; partial := false; subunit_out := false;
     until_failure := true; analyze_isolation := false; isolated := false;
     no_discover := []; combine := true; filters := None |}.

Lemma combine_threads_latest_id_witness :
  ∃ delta,
    trace (run_command as_written combine_options 10 (start pass_pass_fail)).1
    = [Event OpenRepo true] ++ Event LatestId true :: delta
    ∧ Forall (loads_with (λ _ _ _ r, r = Some "0")) delta.
Proof.
  apply (combine_threads_latest_id as_written combine_options 10
           (start pass_pass_fail) (State pass_pass_fail [Event OpenRepo true])
           pass_pass_fail "0"); reflexivity.
Defined.

(** Every other selection is set beside [no_discover]. *)
Definition everything_options : options :=
  {| config_found := true; test_path := None; failing := true;
     load_list := Some "list.txt"; partial := true; subunit_out := false;
     until_failure := false; analyze_isolation := true; isolated := true;
     no_discover := String.list_ascii_of_string "pkg/mod/test_file.py";
     combine := false; filters := None |}.

Lemma no_discover_bypasses_selection_witness :
  ∃ delta,
    trace (run_command as_written everything_options 0
             (start two_spurious)).1
    = trace (start two_spurious) ++ delta
    ∧ Forall (adhoc_event everything_options) delta.
Proof.
  apply (no_discover_bypasses_selection as_written everything_options 0
           (start two_spurious)).
  discriminate.
Defined.

Lemma analysis_exit_code_witness :
  (analyze as_written (Some []) (start nothing_failing)).2 = Ok 0
  ∧ (0 = 0 ∨ 0 = 3).
Proof.
  split; [vm_compute; reflexivity|].
  apply (proj1 (analysis_exit_code as_written (Some [])
                  (start nothing_failing)) 0).
  vm_compute. reflexivity.
Defined.

(** *** The until-failure run on a scripted loader *)

Lemma until_failure_returns_first_failure_witness :
  (run_command as_written batch_options 10 (start pass_pass_fail)).2 = Ok 1
  ∧ count_call (RunTests batch_cmd)
      (trace (run_command as_written batch_options 10
                (start pass_pass_fail)).1) = 3%nat
  ∧ (run_command as_written batch_options 2 (start pass_pass_fail)).2
    = Diverged.
Proof.
  set (st := State pass_pass_fail
               [Event OpenRepo true; Event (GetRunCommand batch_cmd) true]).
  edestruct (until_failure_returns_first_failure as_written batch_cmd
               false false false false None st pass_pass_fail 2 1)
    as (Hrun & Hcount & Hdiv & Hlink).
  - reflexivity.
  - intros j Hj. destruct j as [|[|j]]; [reflexivity|reflexivity|lia].
  - reflexivity.
  - discriminate.
  - reflexivity.
  - assert (∀ fuel,
              run_command as_written batch_options fuel (start pass_pass_fail)
              = _run_tests as_written batch_cmd false false false true false
                  None fuel st) as Hl.
    { intros fuel.
      exact (Hlink batch_options fuel (start pass_pass_fail)
               (State pass_pass_fail [Event OpenRepo true]) None None
               eq_refl eq_refl eq_refl eq_refl eq_refl). }
    rewrite !Hl. rewrite (Hrun 10%nat) by lia.
    split_and!; [reflexivity|vm_compute; reflexivity|apply Hdiv; lia].
Defined.

(** *** The isolated mode when a [setUp] raises *)

(** [setUp] of the command for B raises. *)
Definition setUp_fails_for_B : @collaborators sim :=
  faulty (Returned ())
    (λ c, if decide (cmd_ids c = Some ["B"]) then Some (External "fixture")
          else None)
    no_fault no_fault [].

(** The reading of the claim for one per-test run: whatever its outcome,
    once it has ended its trace holds exactly one more [cleanUp] of its
    command. *)
Definition cleanUp_once_per_run (H : @collaborators sim) (o : options)
    (test_id : string) (st : @state sim) : Prop :=
  let r := single_run H o None 0 test_id st in
  r.2 ≠ Diverged →
  count_call (CleanUp (Cmd (Some [test_id]) (filters o))) (trace r.1)
  = S (count_call (CleanUp (Cmd (Some [test_id]) (filters o))) (trace st)).

(** C7, as stated, fails when [setUp] raises: the per-test run of B ends
    with the propagated error of its [setUp] and without any [cleanUp] of
    its command; the isolated mode ends with that error, and C is not
    run. *)
Lemma isolated_cleanUp_counterexample :
  (single_run setUp_fails_for_B isolated_options None 0 "B"
     (start three_tests)).2 = Raise (External "fixture")
  ∧ ¬ cleanUp_once_per_run setUp_fails_for_B isolated_options "B"
        (start three_tests)
  ∧ (let r := run_isolated setUp_fails_for_B isolated_options None 0
                batch_cmd (start three_tests) in
     r.2 = Raise (External "fixture")
     ∧ count_call (SetUp (Cmd (Some ["B"]) None)) (trace r.1) = 1%nat
     ∧ count_call (CleanUp (Cmd (Some ["B"]) None)) (trace r.1) = 0%nat
     ∧ count_call (SetUp (Cmd (Some ["C"]) None)) (trace r.1) = 0%nat).
Proof.
  split_and!; [by vm_compute| |by vm_compute].
  intros Hclaim. unfold cleanUp_once_per_run in Hclaim.
  assert ((single_run setUp_fails_for_B isolated_options None 0 "B"
             (start three_tests)).2 ≠ Diverged) as Hended
    by (vm_compute; discriminate).
  apply Hclaim in Hended. vm_compute in Hended. discriminate.
Qed.

Lemma isolated_mode_maximum_and_cleanup_witness :
  (run_isolated as_written isolated_options None 0 batch_cmd
     (start three_tests)).2 = Ok 2
  ∧ (∃ ids codes st1,
       discover as_written batch_cmd (start three_tests) = (st1, Ok ids)
       ∧ trace st1
         = trace (start three_tests)
           ++ [Event (SetUp batch_cmd) true; Event (ListTests batch_cmd) true;
               Event (CleanUp batch_cmd) true]
       ∧ per_test_codes as_written isolated_options None 0 ids st1 = Some codes
       ∧ length codes = length ids
       ∧ 0 ≤ 2
       ∧ (∀ x, x ∈ codes → x ≤ 2)
       ∧ (2 = 0 ∨ 2 ∈ codes)
       ∧ ∀ c',
           count_call (SetUp c')
             (trace (run_isolated as_written isolated_options None 0
                       batch_cmd (start three_tests)).1)
           = (count_call (SetUp c') (trace st1)
              + runs_of isolated_options c' ids)%nat
           ∧ count_call (CleanUp c')
               (trace (run_isolated as_written isolated_options None 0
                         batch_cmd (start three_tests)).1)
             = (count_call (CleanUp c') (trace st1)
                + runs_of isolated_options c' ids)%nat)
  ∧ count_call (CleanUp (Cmd (Some ["B"]) None))
      (trace (single_run as_written isolated_options None 0 "B"
                (start three_tests)).1) = 1%nat.
Proof.
  split_and!.
  - reflexivity.
  - apply (proj1 (isolated_mode_maximum_and_cleanup as_written
                    isolated_options None 0 batch_cmd (start three_tests)) 2).
    reflexivity.
  - destruct (proj1 (proj2 (isolated_mode_maximum_and_cleanup as_written
                              isolated_options None 0 batch_cmd
                              (start three_tests)))
                "B" (start three_tests)) as (_ & Hclean & _).
    etrans; [apply Hclean; vm_compute; discriminate|reflexivity].
Defined.

(** *** The analysis with a load list that holds no failing test *)

Definition listing_x : @collaborators sim :=
  faulty (Returned ()) no_fault no_fault no_fault ["x"].

Definition analysis_listed_options : options :=
  {| config_found := true; test_path := None; failing := false;
     load_list := Some "list.txt"; partial := false; subunit_out := false;
     until_failure := false; analyze_isolation := true; isolated := false;
     no_discover := []; combine := true; filters := None |}.

Lemma analysis_without_failing_ids_returns_zero_witness :
  run_command listing_x analysis_listed_options 0 (start a_b_failing)
  = (State a_b_failing
       [Event OpenRepo true; Event LatestId true; Event GetFailing true;
        Event (ReadLoadList "list.txt") true; Event GetLatestRun true],
     Ok 0)
  ∧ run_command as_written analysis_options 0 (start nothing_failing)
    = (State nothing_failing
         [Event OpenRepo true; Event GetFailing true; Event GetLatestRun true],
       Ok 0).
Proof.
  split.
  - apply (proj1 (analysis_without_failing_ids_returns_zero listing_x
                    analysis_listed_options 0 (start a_b_failing)
                    (State a_b_failing
                       [Event OpenRepo true; Event LatestId true;
                        Event GetFailing true;
                        Event (ReadLoadList "list.txt") true])
                    (Some "0") a_b_failing (latest a_b_failing)
                    eq_refl eq_refl eq_refl eq_refl)).
  - apply (proj1 (analysis_without_failing_ids_returns_zero as_written
                    analysis_options 0 (start nothing_failing)
                    (State nothing_failing
                       [Event OpenRepo true; Event GetFailing true])
                    None nothing_failing (latest nothing_failing)
                    eq_refl eq_refl eq_refl eq_refl)).
Defined.

End Exec.
